(** * Search policies of mctx ([mctx/_src/policies.py])

    A shallow embedding of the policy wrappers: the helpers that prepare and
    post-process logits, the final action choice of the standard and the Gumbel
    policy, and the generation loop of [muzero_policy_for_action_sequence].

    Conventions.
    - A [[B, A]] array is a list of [B] rows; integer arrays hold [Z].
    - A floating point number is an extended real with a NaN ([float]) of the
      default dtype, float32. A result beyond the largest finite value
      overflows to an infinity; a result within the finite range is the exact
      real, so rounding is outside the model.
    - Python exceptions are values of [exn]; a fallible function returns a
      [result].
    - The functions of [mctx._src.search] and of JAX that the policies call are
      parameters of the sections below. *)

From Stdlib Require Import List ZArith Bool Reals Lra Lia.
Import ListNotations.

Set Implicit Arguments.

(** ** Exceptions *)

Inductive exn : Type :=
| NotImplementedError
| AssertionError
| ValueError.

Definition result (A : Type) : Type := (exn + A)%type.

Definition ok {A : Type} (a : A) : result A := inr a.
Definition raise {A : Type} (e : exn) : result A := inl e.

Definition bind {A B : Type} (m : result A) (k : A -> result B) : result B :=
  match m with
  | inl e => inl e
  | inr a => k a
  end.

Notation "x <- m ;; k" := (bind m (fun x => k))
  (at level 61, m at next level, right associativity).

Fixpoint mapM {A B : Type} (f : A -> result B) (l : list A) : result (list B) :=
  match l with
  | [] => ok []
  | a :: l' => b <- f a ;; bs <- mapM f l' ;; ok (b :: bs)
  end.

(** ** Floating point values *)

Open Scope R_scope.

Inductive float : Type :=
| NaN
| NegInf
| PosInf
| Fin (x : R).

Definition is_finite (a : float) : Prop :=
  match a with Fin _ => True | _ => False end.

Definition Rltb (x y : R) : bool := if Rlt_dec x y then true else false.

(** [jnp.finfo(jnp.float32)]: the largest and the most negative finite value
    and the smallest positive normal value. *)
Definition finfo_max : R := (2 - / 2 ^ 23) * 2 ^ 127.
Definition finfo_min : R := - ((2 - / 2 ^ 23) * 2 ^ 127).
Definition finfo_tiny : R := / 2 ^ 126.

(** A finite value of the dtype. *)
Definition representable (x : R) : Prop := finfo_min <= x <= finfo_max.

(** The float that an arithmetic operation returns for the real result [x]:
    beyond the finite range the operation overflows. *)
Definition fround (x : R) : float :=
  if Rltb finfo_max x then PosInf
  else if Rltb x finfo_min then NegInf
  else Fin x.

Definition fneg (a : float) : float :=
  match a with
  | NaN => NaN
  | NegInf => PosInf
  | PosInf => NegInf
  | Fin x => Fin (- x)
  end.

Definition fadd (a b : float) : float :=
  match a, b with
  | NaN, _ | _, NaN => NaN
  | PosInf, NegInf | NegInf, PosInf => NaN
  | PosInf, _ | _, PosInf => PosInf
  | NegInf, _ | _, NegInf => NegInf
  | Fin x, Fin y => fround (x + y)
  end.

Definition fsub (a b : float) : float := fadd a (fneg b).

(** [a * c] for a finite factor [c]. *)
Definition fscale (c : R) (a : float) : float :=
  match a with
  | NaN => NaN
  | Fin x => fround (c * x)
  | PosInf => if Rltb 0 c then PosInf else if Rltb c 0 then NegInf else NaN
  | NegInf => if Rltb 0 c then NegInf else if Rltb c 0 then PosInf else NaN
  end.

(** [a / d] for a finite divisor [d]. *)
Definition fdiv (a : float) (d : R) : float :=
  match a with
  | NaN => NaN
  | Fin x =>
      if Rltb 0 d then fround (x / d)
      else if Rltb d 0 then fround (x / d)
      else if Rltb 0 x then PosInf
      else if Rltb x 0 then NegInf
      else NaN
  | PosInf => if Rltb d 0 then NegInf else PosInf
  | NegInf => if Rltb d 0 then PosInf else NegInf
  end.

(** [a < b]; every comparison with a NaN is false. *)
Definition flt (a b : float) : bool :=
  match a, b with
  | NaN, _ | _, NaN => false
  | _, NegInf => false
  | NegInf, _ => true
  | PosInf, _ => false
  | Fin _, PosInf => true
  | Fin x, Fin y => Rltb x y
  end.

(** [jnp.maximum]: a NaN operand gives NaN. *)
Definition fmaximum (a b : float) : float :=
  match a, b with
  | NaN, _ | _, NaN => NaN
  | _, _ => if flt a b then b else a
  end.

(** [jnp.log]. *)
Definition flog (a : float) : float :=
  match a with
  | NaN => NaN
  | NegInf => NaN
  | PosInf => PosInf
  | Fin x => if Rltb 0 x then Fin (ln x) else if Rltb x 0 then NaN else NegInf
  end.

(** [jnp.max(row, axis=-1)]; a reduction over no element raises. *)
Definition row_max (row : list float) : result float :=
  match row with
  | [] => raise ValueError
  | x :: r => ok (fold_left fmaximum r x)
  end.

(** [x] takes the place of the running maximum [best] in a left-to-right
    scan: [jnp.argmax] returns the first maximum and counts a NaN as one. *)
Definition better (x best : float) : bool :=
  match best, x with
  | NaN, _ => false
  | _, NaN => true
  | _, _ => flt best x
  end.

Fixpoint argmax_from (i besti : nat) (best : float) (l : list float) : nat :=
  match l with
  | [] => besti
  | x :: l' =>
      if better x best then argmax_from (S i) i x l'
      else argmax_from (S i) besti best l'
  end.

(** [jnp.argmax(row, axis=-1)]. *)
Definition argmax (row : list float) : result Z :=
  match row with
  | [] => raise ValueError
  | x :: r => ok (Z.of_nat (argmax_from 1 0 x r))
  end.

(** ** Logit helpers *)

(** [chex.assert_equal_shape] on two [[B, A]] arrays given as lists of rows.
    A list of no row has no column count: the arrays of shape [(0, A)] are
    all the empty list, so the statements on shapes are about batches of at
    least one element. *)
Fixpoint same_shape {A B : Type} (x : list (list A)) (y : list (list B)) : bool :=
  match x, y with
  | [], [] => true
  | r :: x', s :: y' => Nat.eqb (length r) (length s) && same_shape x' y'
  | _, _ => false
  end.

(** [jnp.where(mask, c, x)] on one row, [c] a scalar. *)
Fixpoint where_row (mask : list bool) (c : float) (x : list float) : list float :=
  match mask, x with
  | m :: mask', v :: x' => (if m then c else v) :: where_row mask' c x'
  | _, _ => []
  end.

Fixpoint where_rows (mask : list (list bool)) (c : float) (x : list (list float))
  : list (list float) :=
  match mask, x with
  | m :: mask', r :: x' => where_row m c r :: where_rows mask' c x'
  | _, _ => []
  end.

(** [logits - jnp.max(logits, axis=-1, keepdims=True)] on one row. *)
Definition sub_row_max (row : list float) : result (list float) :=
  m <- row_max row ;; ok (map (fun x => fsub x m) row).

Definition _mask_invalid_actions (logits : list (list float))
  (invalid_actions : option (list (list bool))) : result (list (list float)) :=
  match invalid_actions with
  | None => ok logits
  | Some inv =>
      if same_shape logits inv then
        shifted <- mapM sub_row_max logits ;;
        let min_logit := Fin finfo_min in
        ok (where_rows inv min_logit shifted)
      else raise AssertionError
  end.

Definition _get_logits_from_probs (probs : list (list float)) : list (list float) :=
  let tiny := Fin finfo_tiny in
  map (map (fun p => flog (fmaximum p tiny))) probs.

Definition _apply_temperature (logits : list (list float)) (temperature : R)
  : result (list (list float)) :=
  shifted <- mapM sub_row_max logits ;;
  let tiny := finfo_tiny in
  ok (map (map (fun x => fdiv x (Rmax tiny temperature))) shifted).

(** ** Arrays

    Indexing follows JAX: a negative index counts from the end, a read out of
    range is clamped to the nearest element and a write out of range is
    dropped. *)

Open Scope Z_scope.

Definition norm_index (n : nat) (i : Z) : Z :=
  if i <? 0 then i + Z.of_nat n else i.

Definition gather {A : Type} (d : A) (x : list A) (i : Z) : A :=
  let j := norm_index (length x) i in
  nth (Z.to_nat (Z.max 0 (Z.min (Z.of_nat (length x) - 1) j))) x d.

Fixpoint replace_nth {A : Type} (n : nat) (v : A) (x : list A) : list A :=
  match x, n with
  | [], _ => []
  | _ :: x', O => v :: x'
  | a :: x', S n' => a :: replace_nth n' v x'
  end.

(** [x.at[i].set(v)]. *)
Definition at_set {A : Type} (x : list A) (i : Z) (v : A) : list A :=
  let j := norm_index (length x) i in
  if (0 <=? j) && (j <? Z.of_nat (length x)) then replace_nth (Z.to_nat j) v x
  else x.

(** [x.at[:].set(v)] for [v] of the shape of [x]. *)
Definition at_all_set {A : Type} (x v : list A) : list A :=
  map snd (combine x v).

(** [x.at[:, j].set(v)]: column [j] of a [[B, K]] array takes the [[B]] array [v]. *)
Fixpoint at_column_set {A : Type} (x : list (list A)) (j : Z) (v : list A)
  : list (list A) :=
  match x with
  | [] => []
  | row :: x' =>
      match v with
      | [] => row :: at_column_set x' j v
      | a :: v' => at_set row j a :: at_column_set x' j v'
      end
  end.

Definition full {A : Type} (n : nat) (v : A) : list A := repeat v n.

Definition full_like {A B : Type} (x : list A) (v : B) : list B :=
  repeat v (length x).

Definition zeros_like (x : list (list float)) : list (list float) :=
  map (fun row => full_like row (Fin 0%R)) x.

Definition arange (n : nat) : list Z := map Z.of_nat (seq 0 n).

Fixpoint imap_from {A B : Type} (i : nat) (f : nat -> A -> B) (l : list A) : list B :=
  match l with
  | [] => []
  | a :: l' => f i a :: imap_from (S i) f l'
  end.

Definition imap {A B : Type} (f : nat -> A -> B) (l : list A) : list B :=
  imap_from 0 f l.

(** Shape [(B, A)] of a list of rows. *)
Definition shape2 {A : Type} (x : list (list A)) : nat * nat :=
  (length x, match x with [] => O | row :: _ => length row end).

(** [jax.lax.fori_loop(lower, upper, body_fun, init_val)] for a pure body. *)
Definition fori_loop {S : Type} (lower upper : nat) (body_fun : nat -> S -> S)
  (init_val : S) : S :=
  fold_left (fun s i => body_fun i s) (seq lower (upper - lower)) init_val.

(** [jax.lax.cond(pred, true_fun, false_fun, *operands)]. *)
Definition cond {A B : Type} (pred : bool) (true_fun false_fun : A -> B)
  (operand : A) : B :=
  if pred then true_fun operand else false_fun operand.

(** Modelled from the spec: [batch_update(x, vals, indices)] of
    [mctx._src.search], a module outside [policies.py]; re-rooting
    uses it to sever the parent link of the new root (section 3), so row [b]
    of [x] takes [vals[b]] at position [indices[b]]. *)
Fixpoint batch_update {A : Type} (x : list (list A)) (vals : list A)
  (indices : list Z) : list (list A) :=
  match x, vals, indices with
  | row :: x', v :: vals', i :: indices' =>
      at_set row i v :: batch_update x' vals' indices'
  | _, _, _ => []
  end.

(** ** Search trees, model outputs and the search primitives *)

Section Policies.

(** Opaque data of the caller and of the model. *)
Variables Params Embedding ExtraData RecurrentFn QTransform : Type.

(** [jax.random]: keys, [split(key, n)[i]], and the samples
    [dirichlet(key, alpha, shape)[b, a]] and [gumbel(key, shape)[b, a]]. A
    Dirichlet sample is a float: for a concentration that is not positive
    and finite the library returns NaN. *)
Variable PRNGKey : Type.
Variable random_split : PRNGKey -> nat -> nat -> PRNGKey.
Variable random_dirichlet : PRNGKey -> R -> nat * nat -> nat -> nat -> float.
Variable random_gumbel : PRNGKey -> nat * nat -> nat -> nat -> R.

(** [jax.nn.softmax]. *)
Variable softmax : list (list float) -> list (list float).

(** Modelled from the spec: the [Tree] of [mctx._src.tree] (section 3, data
    model), a module outside [policies.py]. *)
Record Tree : Type := {
  node_visits : list (list Z);
  raw_values : list (list float);
  node_values : list (list float);
  parents : list (list Z);
  action_from_parent : list (list Z);
  children_index : list (list (list Z));
  children_prior_logits : list (list (list float));
  children_visits : list (list (list Z));
  children_values : list (list (list float));
  children_rewards : list (list (list float));
  embeddings : list (list Embedding);
  root_index : list Z;
  extra_data : ExtraData
}.

(** The sentinels [Tree.UNVISITED] and [Tree.NO_PARENT] and the constant
    [Tree.INITIAL_ROOT_INDEX]. *)
Variables UNVISITED NO_PARENT INITIAL_ROOT_INDEX : Z.

Record RootFnOutput : Type := {
  prior_logits : list (list float);
  value : list float;
  embedding : list Embedding
}.

Definition replace_prior_logits (root : RootFnOutput) (l : list (list float))
  : RootFnOutput :=
  {| prior_logits := l; value := value root; embedding := embedding root |}.

(** [tree.summary()]: the root's visit counts and visit probabilities. *)
Record SearchSummary : Type := {
  visit_counts : list (list Z);
  visit_probs : list (list float)
}.

Record PolicyOutput (Act W : Type) : Type := {
  action : Act;
  action_weights : W;
  search_tree : Tree
}.

(** The functions of [mctx._src.search], [mctx._src.tree] and
    [mctx._src.action_selection] that the policies call. *)
Variable ActionSelectionFn : Type.
Variable muzero_action_selection :
  R -> R -> QTransform -> option Z -> ActionSelectionFn.
Variable gumbel_muzero_root_action_selection :
  nat -> nat -> QTransform -> ActionSelectionFn.
Variable gumbel_muzero_interior_action_selection :
  QTransform -> ActionSelectionFn.
Variable switching_action_selection_wrapper :
  ActionSelectionFn -> ActionSelectionFn -> ActionSelectionFn.
Variable summary : Tree -> SearchSummary.
Variable vmap_qtransform : QTransform -> Tree -> Z -> list (list float).
Variable GumbelMuZeroExtraData : list (list float) -> ExtraData.
Variable no_extra_data : ExtraData.
Variable search :
  Params -> PRNGKey -> RootFnOutput -> RecurrentFn ->
  ActionSelectionFn -> ActionSelectionFn -> nat -> option Z ->
  option (list (list bool)) -> ExtraData -> Tree.
Variable instantiate_tree_from_root :
  RootFnOutput -> nat -> list (list float) -> ExtraData -> Tree.
Variable simulate :
  list PRNGKey -> Tree -> ActionSelectionFn -> Z -> list Z * list Z.
Variable expand :
  Params -> PRNGKey -> Tree -> RecurrentFn -> list Z -> list Z -> list Z -> Tree.
Variable backward : Tree -> list Z -> Tree.

(** ** Effects

    What a policy call does besides returning: it allocates the tree, runs the
    three steps of a simulation ([expand] is where the model is called) and
    asks the stopping criterion. A computation returns its result together
    with the events it performed, in order. *)

Inductive event : Type :=
| EvInstantiateTree (num_simulations : nat)
| EvSimulate (sim : nat) (max_depth : Z)
| EvExpand (sim : nat) (next_node_index : list Z)
| EvBackward (sim : nat) (next_node_index : list Z)
| EvStoppingCriteria (root_embedding : list Embedding).

Definition M (A : Type) : Type := (result A * list event)%type.

Definition ret {A : Type} (a : A) : M A := (ok a, []).

Definition fail {A : Type} (e : exn) : M A := (raise e, []).

Definition tell (e : event) : M unit := (ok tt, [e]).

Definition lift {A : Type} (r : result A) : M A := (r, []).

Definition bindM {A B : Type} (m : M A) (k : A -> M B) : M B :=
  match m with
  | (inl e, t) => (inl e, t)
  | (inr a, t) => let (r, t') := k a in (r, t ++ t')
  end.

Fixpoint fori_loopM_from {S : Type} (n i : nat) (body_fun : nat -> S -> M S)
  (s : S) : M S :=
  match n with
  | O => ret s
  | Datatypes.S n' =>
      bindM (body_fun i s) (fori_loopM_from n' (Datatypes.S i) body_fun)
  end.

(** [jax.lax.fori_loop] for a body with effects. *)
Definition fori_loopM {S : Type} (lower upper : nat) (body_fun : nat -> S -> M S)
  (init_val : S) : M S :=
  fori_loopM_from (upper - lower) lower body_fun init_val.

Notation "x <-- m ;; k" := (bindM m (fun x => k))
  (at level 61, m at next level, right associativity).

(** ** Root priors and the final sampling of the standard policy *)

(** "Mixes the probs with Dirichlet noise." The two [chex] assertions hold by
    typing (a list of rows has rank 2, the two scalars are reals).
    [jax.random.dirichlet] raises for an array of no action; the model is
    about arrays with at least one action per row. *)
Definition _add_dirichlet_noise (rng_key : PRNGKey) (probs : list (list float))
  (dirichlet_alpha dirichlet_fraction : R) : list (list float) :=
  let noise := random_dirichlet rng_key dirichlet_alpha (shape2 probs) in
  imap (fun b row =>
          imap (fun a p =>
                  fadd (fscale (1 - dirichlet_fraction) p)
                       (fscale dirichlet_fraction (noise b a)))
               row)
       probs.

(** "Adding Dirichlet noise": the root whose prior logits the search gets. *)
Definition root_with_dirichlet_noise (dirichlet_rng_key : PRNGKey)
  (root : RootFnOutput) (invalid_actions : option (list (list bool)))
  (dirichlet_fraction dirichlet_alpha : R) : result RootFnOutput :=
  let noisy_logits :=
    _get_logits_from_probs
      (_add_dirichlet_noise dirichlet_rng_key (softmax (prior_logits root))
         dirichlet_alpha dirichlet_fraction) in
  masked <- _mask_invalid_actions noisy_logits invalid_actions ;;
  ok (replace_prior_logits root masked).

(** [jax.random.categorical(key, logits)] is
    [argmax(gumbel(key, logits.shape) + logits, axis=-1)]. *)
Definition categorical (rng_key : PRNGKey) (logits : list (list float))
  : result (list Z) :=
  let noise := random_gumbel rng_key (shape2 logits) in
  mapM argmax
    (imap (fun b row => imap (fun a x => fadd (Fin (noise b a)) x) row) logits).

(** "Sampling the proposed action proportionally to the visit counts." *)
Definition sample_action (rng_key : PRNGKey) (action_weights : list (list float))
  (temperature : R) : result (list Z) :=
  action_logits <-
    _apply_temperature (_get_logits_from_probs action_weights) temperature ;;
  categorical rng_key action_logits.

Definition muzero_policy (params : Params) (rng_key : PRNGKey)
  (root : RootFnOutput) (recurrent_fn : RecurrentFn) (num_simulations : nat)
  (invalid_actions : option (list (list bool))) (max_depth : option Z)
  (qtransform : QTransform)
  (dirichlet_fraction dirichlet_alpha pb_c_init pb_c_base temperature : R)
  : result (PolicyOutput (list Z) (list (list float))) :=
  let rng_key' := random_split rng_key 3 0 in
  let dirichlet_rng_key := random_split rng_key 3 1 in
  let search_rng_key := random_split rng_key 3 2 in
  root <- root_with_dirichlet_noise dirichlet_rng_key root invalid_actions
            dirichlet_fraction dirichlet_alpha ;;
  let interior_action_selection_fn :=
    muzero_action_selection pb_c_base pb_c_init qtransform None in
  let root_action_selection_fn :=
    muzero_action_selection pb_c_base pb_c_init qtransform (Some 0) in
  let search_tree :=
    search params search_rng_key root recurrent_fn root_action_selection_fn
      interior_action_selection_fn num_simulations max_depth invalid_actions
      no_extra_data in
  let action_weights := visit_probs (summary search_tree) in
  action <- sample_action rng_key' action_weights temperature ;;
  ok {| action := action;
        action_weights := action_weights;
        search_tree := search_tree |}.

(** ** The final action of the Gumbel policy *)

Fixpoint zip_with {A B C : Type} (f : A -> B -> C) (x : list A) (y : list B)
  : list C :=
  match x, y with
  | a :: x', b :: y' => f a b :: zip_with f x' y'
  | _, _ => []
  end.

(** [jnp.max] of a row of integers; a reduction over no element raises. *)
Definition zrow_max (row : list Z) : result Z :=
  match row with
  | [] => raise ValueError
  | x :: r => ok (fold_left Z.max r x)
  end.

(** Modelled from the spec: the floor [-1e9] of
    [seq_halving.score_considered], below which the library does not tell
    scores apart. *)
Definition low_logit : R := (- 10 ^ 9)%R.

(** Modelled from the spec: [seq_halving.score_considered], a function of a
    module outside [policies.py]. The score is gumbel + prior logit + completed Q
    (section 4.3), restricted to the actions that reached the considered visit
    count (section 4.6): every other action scores minus infinity. As in the
    library, the prior logits are first shifted by their row maximum and the
    sum is floored at [low_logit] before the penalty is added. *)
Definition score_considered_row (considered_visit : Z)
  (gumbel logits normalized_qvalues : list float) (visit_counts : list Z)
  : list float :=
  let penalty :=
    map (fun v => if v =? considered_visit then Fin 0%R else NegInf)
        visit_counts in
  zip_with fadd
    (map (fmaximum (Fin low_logit))
         (zip_with fadd (zip_with fadd gumbel logits) normalized_qvalues))
    penalty.

(** Modelled from the spec: [seq_halving.score_considered] on a batch, one
    considered visit count per batch element. The four arrays are asserted
    to have one shape. *)
Definition score_considered (considered_visit : list Z)
  (gumbel logits normalized_qvalues : list (list float))
  (visit_counts : list (list Z)) : result (list (list float)) :=
  logits <- mapM sub_row_max logits ;;
  if same_shape gumbel logits && same_shape logits normalized_qvalues &&
     same_shape normalized_qvalues visit_counts
  then
    ok (imap (fun b v =>
                score_considered_row (nth b considered_visit 0)
                  (nth b gumbel []) (nth b logits [])
                  (nth b normalized_qvalues []) v)
             visit_counts)
  else raise AssertionError.

(** Modelled from the spec: [action_selection.masked_argmax], a function of a
    module outside [policies.py]. Invalid actions are masked to minus infinity
    before the argmax, and the argmax of a row of equal scores is the lowest
    index (section 4.3). As in the library, the mask is asserted to have the
    shape of the scores. *)
Definition masked_argmax (to_argmax : list (list float))
  (invalid_actions : option (list (list bool))) : result (list Z) :=
  match invalid_actions with
  | None => mapM argmax to_argmax
  | Some inv =>
      if same_shape to_argmax inv
      then mapM argmax (where_rows inv NegInf to_argmax)
      else raise AssertionError
  end.

(** "Acting with the best action from the most visited actions." *)
Definition gumbel_final_action (visit_counts : list (list Z))
  (gumbel prior_logits completed_qvalues : list (list float))
  (invalid_actions : option (list (list bool))) : result (list Z) :=
  considered_visit <- mapM zrow_max visit_counts ;;
  to_argmax <-
    score_considered considered_visit gumbel prior_logits completed_qvalues
      visit_counts ;;
  masked_argmax to_argmax invalid_actions.

Definition gumbel_muzero_policy (params : Params) (rng_key : PRNGKey)
  (root : RootFnOutput) (recurrent_fn : RecurrentFn) (num_simulations : nat)
  (invalid_actions : option (list (list bool))) (max_depth : option Z)
  (qtransform : QTransform) (max_num_considered_actions : nat)
  (gumbel_scale : R) : result (PolicyOutput (list Z) (list (list float))) :=
  masked <- _mask_invalid_actions (prior_logits root) invalid_actions ;;
  let root := replace_prior_logits root masked in
  let rng_key' := random_split rng_key 2 0 in
  let gumbel_rng := random_split rng_key 2 1 in
  let noise := random_gumbel gumbel_rng (shape2 (prior_logits root)) in
  let gumbel :=
    imap (fun b row =>
            imap (fun a _ => fscale gumbel_scale (Fin (noise b a))) row)
         (prior_logits root) in
  let extra_data := GumbelMuZeroExtraData gumbel in
  let search_tree :=
    search params rng_key' root recurrent_fn
      (gumbel_muzero_root_action_selection num_simulations
         max_num_considered_actions qtransform)
      (gumbel_muzero_interior_action_selection qtransform)
      num_simulations max_depth invalid_actions extra_data in
  let summary := summary search_tree in
  let completed_qvalues :=
    vmap_qtransform qtransform search_tree INITIAL_ROOT_INDEX in
  action <- gumbel_final_action (visit_counts summary) gumbel
              (prior_logits root) completed_qvalues invalid_actions ;;
  completed_search_logits <-
    _mask_invalid_actions
      (zip_with (zip_with fadd) (prior_logits root) completed_qvalues)
      invalid_actions ;;
  let action_weights := softmax completed_search_logits in
  ok {| action := action;
        action_weights := action_weights;
        search_tree := search_tree |}.

(** ** The multi-step policy *)

Definition children_index_at (tree : Tree) (b n a : Z) : Z :=
  gather 0 (gather [] (gather [] (children_index tree) b) n) a.

(** [x[i]] when [x] holds opaque values: nothing to read in an empty array. *)
Definition gather_opt {A : Type} (x : list A) (i : Z) : option A :=
  let j := norm_index (length x) i in
  nth_error x (Z.to_nat (Z.max 0 (Z.min (Z.of_nat (length x) - 1) j))).

(** [tree.replace(root_index=..., parents=...)]. *)
Definition replace_root_index_parents (tree : Tree) (new_root_index : list Z)
  (new_parents : list (list Z)) : Tree :=
  {| node_visits := node_visits tree;
     raw_values := raw_values tree;
     node_values := node_values tree;
     parents := new_parents;
     action_from_parent := action_from_parent tree;
     children_index := children_index tree;
     children_prior_logits := children_prior_logits tree;
     children_visits := children_visits tree;
     children_values := children_values tree;
     children_rewards := children_rewards tree;
     embeddings := embeddings tree;
     root_index := new_root_index;
     extra_data := extra_data tree |}.

Section GenerationLoop.

(** What the nested functions of [muzero_policy_for_action_sequence] close
    over. *)
Variable params : Params.
Variable recurrent_fn : RecurrentFn.
Variable num_simulations : nat.
Variable stopping_criteria_fn : list Embedding -> bool.
Variable temperature : R.
Variable action_selection_fn : ActionSelectionFn.
Variable batch_size : nat.

Definition batch_range : list Z := arange batch_size.

(** The node that the simulation with loop counter [sim] expands or revisits:
    "A node first expanded on simulation [i], will have node index [i]." *)
Definition next_node_index (tree : Tree) (parent_index action : list Z)
  (sim : nat) : list Z :=
  let next_node_index :=
    map (fun b =>
           children_index_at tree b (gather 0 parent_index b) (gather 0 action b))
        batch_range in
  map (fun x => if x =? UNVISITED then Z.of_nat sim + 1 else x) next_node_index.

Definition generate_next_action_inner (sim : nat)
  (loop_state : PRNGKey * Tree * Z) : M (PRNGKey * Tree * Z) :=
  let '(rng_key, tree, max_depth) := loop_state in
  let rng_key' := random_split rng_key 3 0 in
  let simulate_key := random_split rng_key 3 1 in
  let expand_key := random_split rng_key 3 2 in
  let simulate_keys :=
    map (random_split simulate_key batch_size) (seq 0 batch_size) in
  _ <-- tell (EvSimulate sim max_depth) ;;
  let '(parent_index, action) :=
    simulate simulate_keys tree action_selection_fn max_depth in
  let next_node_index := next_node_index tree parent_index action sim in
  _ <-- tell (EvExpand sim next_node_index) ;;
  let tree :=
    expand params expand_key tree recurrent_fn parent_index action
      next_node_index in
  _ <-- tell (EvBackward sim next_node_index) ;;
  let tree := backward tree next_node_index in
  ret (rng_key', tree, max_depth).

(** The tree after the simulation with loop counter [sim]. *)
Definition simulation_step (sim : nat) (rng_key : PRNGKey) (tree : Tree)
  (max_depth : Z) : Tree :=
  let simulate_keys :=
    map (random_split (random_split rng_key 3 1) batch_size)
        (seq 0 batch_size) in
  let pa := simulate simulate_keys tree action_selection_fn max_depth in
  let target := next_node_index tree (fst pa) (snd pa) sim in
  backward
    (expand params (random_split rng_key 3 2) tree recurrent_fn (fst pa)
       (snd pa) target)
    target.

(** The tree after the simulations with the loop counters [i] to
    [i + n - 1], the key being split before each of them. *)
Fixpoint simulated (n i : nat) (rng_key : PRNGKey) (tree : Tree)
  (max_depth : Z) : Tree :=
  match n with
  | O => tree
  | S n' =>
      simulated n' (S i) (random_split rng_key 3 0)
        (simulation_step i rng_key tree max_depth) max_depth
  end.

(** "Make the new action and update the root." *)
Definition update_new_root_index (tree : Tree) (action : list Z)
  (batch_idx : nat) (new_root_index : list Z) : list Z :=
  at_set new_root_index (Z.of_nat batch_idx)
    (children_index_at tree (Z.of_nat batch_idx)
       (gather 0 (root_index tree) (Z.of_nat batch_idx))
       (gather 0 action (Z.of_nat batch_idx))).

Definition update_root (tree : Tree) (action : list Z) : Tree :=
  let new_root_index :=
    fori_loop 0 batch_size (update_new_root_index tree action)
      (full_like (root_index tree) (-1)) in
  replace_root_index_parents tree
    (at_all_set (root_index tree) new_root_index)
    (batch_update (parents tree) (full batch_size NO_PARENT) new_root_index).

Definition root_embedding (tree : Tree) : list Embedding :=
  flat_map (fun b =>
              match gather_opt (gather [] (embeddings tree) b)
                               (gather 0 (root_index tree) b) with
              | Some e => [e]
              | None => []
              end)
           batch_range.

Definition generate_next_action (generated_action : nat)
  (loop_state : PRNGKey * Tree * Z * list (list Z) * bool)
  : M (PRNGKey * Tree * Z * list (list Z) * bool) :=
  let '(rng_key, tree, max_depth, performed_actions, stop_generating) :=
    loop_state in
  inner <-- fori_loopM (generated_action * num_simulations)
              ((generated_action + 1) * num_simulations)
              generate_next_action_inner (rng_key, tree, max_depth) ;;
  let '(_, tree, _) := inner in
  let action_weights := visit_probs (summary tree) in
  action <-- lift (sample_action rng_key action_weights temperature) ;;
  let tree := update_root tree action in
  let performed_actions :=
    at_column_set performed_actions (Z.of_nat generated_action) action in
  let root_embedding := root_embedding tree in
  _ <-- tell (EvStoppingCriteria root_embedding) ;;
  let stop_generating := stopping_criteria_fn root_embedding in
  ret (rng_key, tree, max_depth - 1, performed_actions, stop_generating).

Definition generate_next_action_stopping_wrapper (generated_action : nat)
  (loop_state : PRNGKey * Tree * Z * list (list Z) * bool)
  : M (PRNGKey * Tree * Z * list (list Z) * bool) :=
  let '(_, _, max_depth, _, stop_generating) := loop_state in
  let stop_generating_is_true_or_max_depth_is_zero :=
    cond stop_generating (fun _ => true) (fun _ => max_depth =? 0) tt in
  cond stop_generating_is_true_or_max_depth_is_zero
    (fun op => ret (snd op))
    (fun op => generate_next_action (fst op) (snd op))
    (generated_action, loop_state).

End GenerationLoop.

Definition muzero_policy_for_action_sequence (params : Params)
  (rng_key : PRNGKey) (root : RootFnOutput) (recurrent_fn : RecurrentFn)
  (num_simulations : nat) (stopping_criteria_fn : list Embedding -> bool)
  (invalid_actions : option (list (list bool))) (max_depth : option Z)
  (qtransform : QTransform)
  (dirichlet_fraction dirichlet_alpha pb_c_init pb_c_base temperature : R)
  (extra_data : ExtraData) (num_actions_to_generate : nat)
  : M (PolicyOutput (list (list Z)) (list float)) :=
  match invalid_actions with
  | Some _ => fail NotImplementedError
  | None =>
      let rng_key' := random_split rng_key 3 0 in
      let dirichlet_rng_key := random_split rng_key 3 1 in
      let search_rng_key := random_split rng_key 3 2 in
      root <-- lift (root_with_dirichlet_noise dirichlet_rng_key root
                       invalid_actions dirichlet_fraction dirichlet_alpha) ;;
      let interior_action_selection_fn :=
        muzero_action_selection pb_c_base pb_c_init qtransform None in
      let root_action_selection_fn :=
        muzero_action_selection pb_c_base pb_c_init qtransform (Some 0) in
      let action_selection_fn :=
        switching_action_selection_wrapper root_action_selection_fn
          interior_action_selection_fn in
      let batch_size := length (value root) in
      let max_depth :=
        match max_depth with
        | None => Z.of_nat (num_simulations * num_actions_to_generate)
        | Some d => d
        end in
      let invalid_actions := zeros_like (prior_logits root) in
      _ <-- tell (EvInstantiateTree (num_actions_to_generate * num_simulations)) ;;
      let tree :=
        instantiate_tree_from_root root
          (num_actions_to_generate * num_simulations) invalid_actions
          extra_data in
      let performed_actions :=
        full batch_size (full num_actions_to_generate (-1)) in
      final <-- fori_loopM 0 num_actions_to_generate
                  (generate_next_action_stopping_wrapper params recurrent_fn
                     num_simulations stopping_criteria_fn temperature
                     action_selection_fn batch_size)
                  (rng_key', tree, max_depth, performed_actions, false) ;;
      let '(_, tree, _, performed_actions, _) := final in
      ret {| action := performed_actions;
             action_weights := [];
             search_tree := tree |}
  end.

(** ** Reading a trace *)

(** The simulations of a trace: loop counter and the [max_depth] given to
    [simulate]. *)
Definition simulations (tr : list event) : list (nat * Z) :=
  flat_map (fun e => match e with EvSimulate s d => [(s, d)] | _ => [] end) tr.

Definition expansions (tr : list event) : list nat :=
  flat_map (fun e => match e with EvExpand s _ => [s] | _ => [] end) tr.

Definition backwards (tr : list event) : list nat :=
  flat_map (fun e => match e with EvBackward s _ => [s] | _ => [] end) tr.

Definition stopping_calls (tr : list event) : list (list Embedding) :=
  flat_map (fun e => match e with EvStoppingCriteria x => [x] | _ => [] end) tr.

(** The generation loop has stopped in this state. *)
Definition stopped (loop_state : PRNGKey * Tree * Z * list (list Z) * bool)
  : bool :=
  let '(_, _, max_depth, _, stop_generating) := loop_state in
  stop_generating || (max_depth =? 0).

(** Simulations of the rounds [g0, g0 + r): round [g] runs the loop counters
    [g * n .. (g + 1) * n - 1] with the countdown value of that round. *)
Definition round_simulations (n : nat) (max_depth : Z) (g0 r : nat)
  : list (nat * Z) :=
  flat_map (fun g =>
              map (fun s => (s, max_depth - Z.of_nat (g - g0)))
                  (seq (g * n) n))
           (seq g0 r).

Definition nonempty_rows {A : Type} (x : list (list A)) : Prop :=
  Forall (fun row => row <> []) x.

(** The position that [x.at[i].set(v)] writes, if any. *)
Definition written_index (n : nat) (i : Z) : option nat :=
  let j := norm_index n i in
  if (0 <=? j) && (j <? Z.of_nat n) then Some (Z.to_nat j) else None.

(** A [[B, K]] array of performed actions whose columns from [from] on still
    hold the initial [-1]. *)
Definition columns_unset (performed_actions : list (list Z)) (from K : nat)
  : Prop :=
  Forall (fun row =>
            length row = K /\
            forall j, (from <= j < K)%nat -> nth j row 0 = -1)
         performed_actions.

(** The maximum of a non-empty row of reals. *)
Definition Rrow_max (xs : list R) : R :=
  match xs with
  | [] => 0%R
  | x :: r => fold_left Rmax r x
  end.

(** A [[B, n]] array. *)
Definition rect {A : Type} (B n : nat) (x : list (list A)) : Prop :=
  length x = B /\ Forall (fun row => length row = n) x.



(** The logit of a visit probability: [log(max(p, tiny))]. *)
Definition log_prob (p : R) : R := ln (Rmax p finfo_tiny).

(** Rows of equal lengths, pairwise. *)
Definition same_row_lengths {A B : Type} (x : list (list A))
  (y : list (list B)) : Prop :=
  Forall2 (fun r s => length s = length r) x y.

(** The number of rounds that the generation loop executes when the stopping
    criterion never holds: the countdown started at [max_depth] stops the
    loop when it reaches 0, which a negative start never does. *)
Definition rounds_until_depth (num_actions_to_generate : nat) (max_depth : Z)
  : nat :=
  if max_depth <? 0 then num_actions_to_generate
  else Nat.min num_actions_to_generate (Z.to_nat max_depth).

(** The performed actions after [g] rounds: [B] rows of [K] columns, the
    first [g] columns holding actions below [A], the others the initial
    [-1]. *)
Definition actions_until (B K A g : nat) (performed_actions : list (list Z))
  : Prop :=
  length performed_actions = B /\
  Forall (fun row =>
            length row = K /\
            (forall j, (j < g)%nat -> 0 <= nth j row 0 < Z.of_nat A) /\
            (forall j, (g <= j < K)%nat -> nth j row 0 = -1))
         performed_actions.

(** Column [j] of the performed actions: one action per batch element. *)
Definition action_column (j : nat) (performed_actions : list (list Z))
  : list Z :=
  map (fun row => nth j row 0) performed_actions.

(** A value of the dtype: a finite one lies in the finite range. *)
Definition is_float (a : float) : Prop :=
  match a with
  | Fin x => representable x
  | _ => True
  end.

(** No entry of the row is further below the row maximum than the largest
    finite value: subtracting the maximum does not overflow. *)
Definition within_spread (xs : list R) : Prop :=
  forall x, In x xs -> (Rrow_max xs - x <= finfo_max)%R.


(** A finite value of the dtype. *)
Definition finite_float (a : float) : Prop :=
  exists x, a = Fin x /\ representable x.

(** * Properties *)

(** ** Lists, [result] and the effect monad *)

Lemma mapM_Forall2 : forall (A B : Type) (f : A -> result B) (l : list A),
  Forall (fun a => exists b, f a = ok b) l ->
  exists l', mapM f l = ok l' /\ Forall2 (fun a b => f a = ok b) l l'.
Proof.
  intros A B f l H. induction H as [|a l [b Hb] _ [l' [IH1 IH2]]].
  - exists []. split; [reflexivity | constructor].
  - exists (b :: l'). split.
    + simpl. rewrite Hb. simpl. rewrite IH1. reflexivity.
    + constructor; assumption.
Qed.

Lemma mapM_inv : forall (A B : Type) (f : A -> result B) (l : list A) (l' : list B),
  mapM f l = ok l' -> Forall2 (fun a b => f a = ok b) l l'.
Proof.
  intros A B f l. induction l as [|a l IH]; intros l' H; simpl in H.
  - inversion H. constructor.
  - destruct (f a) as [e|b] eqn:Ea; simpl in H; [discriminate|].
    destruct (mapM f l) as [e|bs] eqn:El; simpl in H; [discriminate|].
    inversion H; subst. constructor; [assumption | apply IH; reflexivity].
Qed.

Lemma imap_from_length : forall (A B : Type) (f : nat -> A -> B) (l : list A) i,
  length (imap_from i f l) = length l.
Proof.
  intros A B f l. induction l as [|a l IH]; intros i; simpl; [|rewrite IH];
    reflexivity.
Qed.

Lemma imap_from_nth_error : forall (A B : Type) (f : nat -> A -> B) (l : list A) i k,
  nth_error (imap_from i f l) k = option_map (f (i + k)%nat) (nth_error l k).
Proof.
  intros A B f l. induction l as [|a l IH]; intros i k; simpl.
  - destruct k; reflexivity.
  - destruct k as [|k]; simpl.
    + rewrite Nat.add_0_r. reflexivity.
    + rewrite IH. replace (S i + k)%nat with (i + S k)%nat by lia. reflexivity.
Qed.


Lemma imap_from_map : forall (A B C : Type) (f : nat -> B -> C) (h : A -> B) l i,
  imap_from i f (map h l) = imap_from i (fun k a => f k (h a)) l.
Proof.
  intros A B C f h l. induction l as [|a l IH]; intros i; simpl.
  - reflexivity.
  - rewrite IH. reflexivity.
Qed.

Lemma shape2_map : forall (A B : Type) (f : list A -> list B) (x : list (list A)),
  (forall row, length (f row) = length row) -> shape2 (map f x) = shape2 x.
Proof.
  intros A B f x H. unfold shape2. rewrite length_map.
  destruct x; simpl; [|rewrite H]; reflexivity.
Qed.

Lemma imap_from_map_out : forall (A B C : Type) (h : B -> C) (g : nat -> A -> B)
  l i,
  imap_from i (fun k a => h (g k a)) l = map h (imap_from i g l).
Proof.
  intros A B C h g l. induction l as [|a l IH]; intros i; simpl.
  - reflexivity.
  - rewrite IH. reflexivity.
Qed.

Lemma imap_from_id_Forall : forall (A : Type) (P : A -> Prop)
  (f : nat -> A -> A) (l : list A) i,
  (forall k a, P a -> f k a = a) -> Forall P l -> imap_from i f l = l.
Proof.
  intros A P f l i Hf H. revert i.
  induction H as [|a l Ha _ IH]; intros i; simpl.
  - reflexivity.
  - rewrite Hf by exact Ha. rewrite IH. reflexivity.
Qed.

Lemma imap_from_nonempty : forall (A B : Type) (f : nat -> list A -> list B)
  (l : list (list A)) i,
  (forall k row, row <> [] -> f k row <> []) ->
  nonempty_rows l -> nonempty_rows (imap_from i f l).
Proof.
  intros A B f l i Hf H. revert i.
  induction H as [|row l Hrow _ IH]; intros i; simpl; constructor.
  - apply Hf. assumption.
  - apply IH.
Qed.

Lemma bindM_ret_l : forall (A B : Type) (a : A) (k : A -> M B),
  bindM (ret a) k = k a.
Proof.
  intros A B a k. unfold bindM, ret, ok. destruct (k a) as [r t]. reflexivity.
Qed.

Lemma bindM_tell : forall (B : Type) (e : event) (k : unit -> M B),
  bindM (tell e) k = (fst (k tt), e :: snd (k tt)).
Proof.
  intros B e k. unfold bindM, tell, ok. destruct (k tt) as [r t]. reflexivity.
Qed.

Lemma bindM_ok : forall (A B : Type) (a : A) (t : list event) (k : A -> M B),
  bindM (ok a, t) k = (fst (k a), t ++ snd (k a)).
Proof.
  intros A B a t k. unfold bindM, ok. destruct (k a) as [r t']. reflexivity.
Qed.

Lemma flat_map_app_list : forall (A B : Type) (f : A -> list B) (l1 l2 : list A),
  flat_map f (l1 ++ l2) = flat_map f l1 ++ flat_map f l2.
Proof.
  intros A B f l1 l2. induction l1 as [|a l1 IH]; simpl.
  - reflexivity.
  - rewrite IH, app_assoc. reflexivity.
Qed.

Lemma simulations_app : forall t1 t2,
  simulations (t1 ++ t2) = simulations t1 ++ simulations t2.
Proof. intros. apply flat_map_app_list. Qed.

Lemma expansions_app : forall t1 t2,
  expansions (t1 ++ t2) = expansions t1 ++ expansions t2.
Proof. intros. apply flat_map_app_list. Qed.

Lemma backwards_app : forall t1 t2,
  backwards (t1 ++ t2) = backwards t1 ++ backwards t2.
Proof. intros. apply flat_map_app_list. Qed.

Lemma stopping_calls_app : forall t1 t2,
  stopping_calls (t1 ++ t2) = stopping_calls t1 ++ stopping_calls t2.
Proof. intros. apply flat_map_app_list. Qed.

(** ** The final sampling returns *)

Lemma sub_row_max_ok : forall row,
  row <> [] -> exists row', sub_row_max row = ok row' /\ length row' = length row.
Proof.
  intros [|x r] H; [congruence|].
  eexists. split; [reflexivity|]. apply length_map.
Qed.

Lemma Forall2_nonempty : forall (f : list float -> result (list float)) l l',
  (forall a b, f a = ok b -> length b = length a) ->
  Forall2 (fun a b => f a = ok b) l l' ->
  nonempty_rows l -> nonempty_rows l' /\ length l' = length l.
Proof.
  intros f l l' Hf H. induction H as [|a b l l' Hab _ IH]; intros Hne.
  - split; [constructor | reflexivity].
  - inversion Hne; subst. destruct (IH H2) as [IH1 IH2]. split.
    + constructor; [|assumption]. intros ->. apply Hf in Hab.
      destruct a; [congruence | discriminate].
    + simpl. rewrite IH2. reflexivity.
Qed.

Lemma sub_row_max_length : forall a b, sub_row_max a = ok b -> length b = length a.
Proof.
  intros [|x r] b H; [discriminate|]. inversion H. simpl.
  rewrite length_map. reflexivity.
Qed.

Lemma map_rows_nonempty : forall (f : float -> float) (l : list (list float)),
  nonempty_rows l -> nonempty_rows (map (map f) l).
Proof.
  intros f l H. induction H as [|row l Hrow _ IH]; simpl; constructor.
  - destruct row; [congruence | discriminate].
  - exact IH.
Qed.

Lemma _apply_temperature_ok : forall logits temperature,
  nonempty_rows logits ->
  exists out, _apply_temperature logits temperature = ok out /\
              nonempty_rows out /\ length out = length logits.
Proof.
  intros logits temperature H. unfold _apply_temperature.
  destruct (@mapM_Forall2 _ _ sub_row_max logits) as [s [Hs1 Hs2]].
  { eapply Forall_impl; [|exact H]. intros row Hrow.
    destruct (sub_row_max_ok Hrow) as [r [Hr _]]. eauto. }
  rewrite Hs1. simpl.
  destruct (Forall2_nonempty sub_row_max sub_row_max_length Hs2 H) as [H1 H2].
  eexists. split; [reflexivity|]. split.
  - apply map_rows_nonempty. assumption.
  - rewrite length_map. assumption.
Qed.

Lemma categorical_ok : forall rng_key logits,
  nonempty_rows logits ->
  exists a, categorical rng_key logits = ok a /\ length a = length logits.
Proof.
  intros rng_key logits H. unfold categorical.
  set (rows := imap _ logits).
  assert (Hrows : nonempty_rows rows).
  { apply imap_from_nonempty; [|assumption].
    intros k [|x r] Hr; [congruence | discriminate]. }
  destruct (@mapM_Forall2 _ _ argmax rows) as [a [Ha1 Ha2]].
  { eapply Forall_impl; [|exact Hrows].
    intros [|x r] Hr; [congruence|]. eexists. reflexivity. }
  exists a. split; [assumption|].
  apply Forall2_length in Ha2. rewrite <- Ha2. apply imap_from_length.
Qed.

Lemma sample_action_ok : forall rng_key action_weights temperature,
  nonempty_rows action_weights ->
  exists a, sample_action rng_key action_weights temperature = ok a /\
            length a = length action_weights.
Proof.
  intros rng_key w t H. unfold sample_action.
  destruct (@_apply_temperature_ok (_get_logits_from_probs w) t)
    as [out [H1 [H2 H3]]].
  { apply map_rows_nonempty. assumption. }
  rewrite H1. simpl.
  destruct (categorical_ok rng_key H2) as [a [Ha1 Ha2]].
  exists a. split; [assumption|].
  rewrite Ha2, H3. unfold _get_logits_from_probs. apply length_map.
Qed.


(** ** Array updates *)

Lemma replace_nth_length : forall (A : Type) (x : list A) n v,
  length (replace_nth n v x) = length x.
Proof.
  intros A x. induction x as [|a x IH]; intros [|n] v; simpl; auto.
Qed.

Lemma replace_nth_nth_error : forall (A : Type) (x : list A) n v k,
  nth_error (replace_nth n v x) k =
  if (Nat.eqb k n && Nat.ltb n (length x))%bool then Some v else nth_error x k.
Proof.
  intros A x. induction x as [|a x IH]; intros n v k; simpl.
  - rewrite andb_false_r. destruct n; reflexivity.
  - destruct n as [|n]; destruct k as [|k]; simpl; try reflexivity.
    rewrite IH. reflexivity.
Qed.

Lemma at_set_length : forall (A : Type) (x : list A) i v,
  length (at_set x i v) = length x.
Proof.
  intros A x i v. unfold at_set.
  destruct (_ && _); [apply replace_nth_length | reflexivity].
Qed.

Lemma at_set_nth_error : forall (A : Type) (x : list A) i v k,
  nth_error (at_set x i v) k =
  match written_index (length x) i with
  | Some j => if Nat.eqb k j then Some v else nth_error x k
  | None => nth_error x k
  end.
Proof.
  intros A x i v k. unfold at_set, written_index.
  destruct ((0 <=? _) && (_ <? _)) eqn:E; [|reflexivity].
  rewrite replace_nth_nth_error.
  apply andb_prop in E. destruct E as [E1 E2].
  apply Z.leb_le in E1. apply Z.ltb_lt in E2.
  assert (Hlt : Nat.ltb (Z.to_nat (norm_index (length x) i)) (length x) = true).
  { apply Nat.ltb_lt. lia. }
  rewrite Hlt, andb_true_r. reflexivity.
Qed.

Lemma written_index_of_nat : forall n g,
  written_index n (Z.of_nat g) = if Nat.ltb g n then Some g else None.
Proof.
  intros n g. unfold written_index, norm_index.
  destruct (Z.of_nat g <? 0) eqn:E; [apply Z.ltb_lt in E; lia|].
  destruct (Nat.ltb g n) eqn:L.
  - apply Nat.ltb_lt in L.
    replace (0 <=? Z.of_nat g) with true by (symmetry; apply Z.leb_le; lia).
    replace (Z.of_nat g <? Z.of_nat n) with true
      by (symmetry; apply Z.ltb_lt; lia).
    simpl. rewrite Nat2Z.id. reflexivity.
  - apply Nat.ltb_ge in L.
    replace (Z.of_nat g <? Z.of_nat n) with false
      by (symmetry; apply Z.ltb_ge; lia).
    rewrite andb_false_r. reflexivity.
Qed.

Lemma at_set_nth_other : forall (A : Type) (x : list A) g v j d,
  j <> g -> nth j (at_set x (Z.of_nat g) v) d = nth j x d.
Proof.
  intros A x g v j d H.
  assert (E : nth_error (at_set x (Z.of_nat g) v) j = nth_error x j).
  { rewrite at_set_nth_error, written_index_of_nat.
    destruct (Nat.ltb g (length x)); [|reflexivity].
    destruct (Nat.eqb j g) eqn:Ej; [apply Nat.eqb_eq in Ej; congruence|].
    reflexivity. }
  rewrite <- !nth_default_eq. unfold nth_default. rewrite E. reflexivity.
Qed.

Lemma at_column_set_length : forall (A : Type) (x : list (list A)) j v,
  length (at_column_set x j v) = length x.
Proof.
  intros A x. induction x as [|row x IH]; intros j v; simpl.
  - reflexivity.
  - destruct v; simpl; rewrite IH; reflexivity.
Qed.

Lemma at_column_set_rows : forall (A : Type) (P : list A -> Prop)
  (x : list (list A)) g v,
  (forall row a, P row -> P (at_set row (Z.of_nat g) a)) ->
  Forall P x -> Forall P (at_column_set x (Z.of_nat g) v).
Proof.
  intros A P x g v Hset H. revert v.
  induction H as [|row x Hrow _ IH]; intros v; simpl.
  - constructor.
  - destruct v; constructor; auto.
Qed.

Lemma replace_nth_app_middle : forall (A : Type) (l1 : list A) a l2 v,
  replace_nth (length l1) v (l1 ++ a :: l2) = l1 ++ v :: l2.
Proof.
  intros A l1 a l2 v. induction l1 as [|x l1 IH]; simpl.
  - reflexivity.
  - rewrite IH. reflexivity.
Qed.

Lemma at_set_app_middle : forall (A : Type) (l1 : list A) a l2 v,
  at_set (l1 ++ a :: l2) (Z.of_nat (length l1)) v = l1 ++ v :: l2.
Proof.
  intros A l1 a l2 v.
  assert (E : nth_error (l1 ++ a :: l2) (length l1) = Some a).
  { rewrite nth_error_app2, Nat.sub_diag by lia. reflexivity. }
  unfold at_set.
  pose proof (written_index_of_nat (length (l1 ++ a :: l2)) (length l1)) as W.
  unfold written_index in W.
  assert (L : Nat.ltb (length l1) (length (l1 ++ a :: l2)) = true).
  { apply Nat.ltb_lt. rewrite length_app. simpl. lia. }
  rewrite L in W.
  destruct ((0 <=? _) && (_ <? _)); [|discriminate].
  injection W as W'. rewrite W'. apply replace_nth_app_middle.
Qed.

Lemma skipn_cons_nth : forall (A : Type) (l : list A) k d,
  (k < length l)%nat -> skipn k l = nth k l d :: skipn (S k) l.
Proof.
  intros A l. induction l as [|a l IH]; intros k d H; simpl in H.
  - lia.
  - destruct k as [|k]; [reflexivity|]. simpl. apply IH. lia.
Qed.

Lemma fold_at_set_seq : forall (f : nat -> Z) k init,
  (k <= length init)%nat ->
  fold_left (fun s i => at_set s (Z.of_nat i) (f i)) (seq 0 k) init =
  map f (seq 0 k) ++ skipn k init.
Proof.
  intros f k. induction k as [|k IH]; intros init H.
  - reflexivity.
  - rewrite seq_S, fold_left_app, map_app. cbn [fold_left map Nat.add].
    rewrite IH by lia. rewrite (skipn_cons_nth init 0) by lia.
    replace (Z.of_nat k) with (Z.of_nat (length (map f (seq 0 k))))
      by (rewrite length_map, length_seq; reflexivity).
    rewrite at_set_app_middle, <- app_assoc. reflexivity.
Qed.

Lemma at_all_set_same_length : forall (A : Type) (x v : list A),
  length x = length v -> at_all_set x v = v.
Proof.
  intros A x. unfold at_all_set.
  induction x as [|a x IH]; intros [|b v] H; simpl in *; try discriminate.
  - reflexivity.
  - rewrite IH by lia. reflexivity.
Qed.



(** ** Reading an array *)

Lemma gather_of_nat : forall (A : Type) (d : A) (x : list A) b,
  (b < length x)%nat -> gather d x (Z.of_nat b) = nth b x d.
Proof.
  intros A d x b H. unfold gather, norm_index.
  destruct (Z.of_nat b <? 0) eqn:E; [apply Z.ltb_lt in E; lia|].
  f_equal. lia.
Qed.

Lemma gather_nth_error : forall (A : Type) (d : A) (x : list A) i v,
  0 <= i -> nth_error x (Z.to_nat i) = Some v -> gather d x i = v.
Proof.
  intros A d x i v Hi Hv.
  assert (Hlt : (Z.to_nat i < length x)%nat)
    by (apply nth_error_Some; congruence).
  replace i with (Z.of_nat (Z.to_nat i)) by lia.
  rewrite gather_of_nat by exact Hlt. apply nth_error_nth. exact Hv.
Qed.

Lemma gather_opt_nth_error : forall (A : Type) (x : list A) i v,
  0 <= i -> nth_error x (Z.to_nat i) = Some v -> gather_opt x i = Some v.
Proof.
  intros A x i v Hi Hv.
  assert (Hlt : (Z.to_nat i < length x)%nat)
    by (apply nth_error_Some; congruence).
  unfold gather_opt, norm_index.
  destruct (i <? 0) eqn:E; [apply Z.ltb_lt in E; lia|].
  rewrite <- Hv. f_equal. lia.
Qed.

Lemma gather_opt_minus_one : forall (A : Type) (x : list A),
  x <> [] -> gather_opt x (-1) = nth_error x (length x - 1).
Proof.
  intros A x H. unfold gather_opt, norm_index. cbn [Z.ltb Z.compare].
  f_equal. destruct x as [|a x]; [congruence|]. simpl length. lia.
Qed.

Lemma gather_opt_nonempty : forall (A : Type) (x : list A) i,
  x <> [] -> exists v, gather_opt x i = Some v.
Proof.
  intros A x i H. unfold gather_opt.
  set (j := Z.to_nat _).
  assert (Hj : (j < length x)%nat).
  { unfold j. destruct x as [|a x]; [congruence|]. simpl length. lia. }
  destruct (nth_error x j) as [v|] eqn:E; [eauto|].
  apply nth_error_None in E. lia.
Qed.

(** A [flat_map] of one-element lists is read by position. *)
Lemma flat_map_singletons_nth_error : forall (A B : Type) (f : A -> list B)
  (l : list A) k x e,
  (forall y, In y l -> exists v, f y = [v]) ->
  nth_error l k = Some x -> f x = [e] ->
  nth_error (flat_map f l) k = Some e.
Proof.
  intros A B f l. induction l as [|y l IH]; intros k x e Hall Hk Hx.
  - destruct k; discriminate.
  - destruct (Hall y (or_introl eq_refl)) as [v Hv]. cbn [flat_map].
    rewrite Hv. destruct k as [|k]; cbn [nth_error app] in *.
    + injection Hk as ->. rewrite Hx in Hv. injection Hv as ->. reflexivity.
    + apply (IH k x e); auto. intros z Hz. apply Hall. right. exact Hz.
Qed.

(** ** One simulation *)

Section GenerationLoopFacts.

Variable params : Params.
Variable recurrent_fn : RecurrentFn.
Variable num_simulations : nat.
Variable stopping_criteria_fn : list Embedding -> bool.
Variable temperature : R.
Variable action_selection_fn : ActionSelectionFn.
Variable batch_size : nat.

Let inner := generate_next_action_inner params recurrent_fn action_selection_fn
               batch_size.
Let round := generate_next_action params recurrent_fn num_simulations
               stopping_criteria_fn temperature action_selection_fn batch_size.
Let step := simulation_step params recurrent_fn action_selection_fn
              batch_size.
Let wrapper := generate_next_action_stopping_wrapper params recurrent_fn
                 num_simulations stopping_criteria_fn temperature
                 action_selection_fn batch_size.

Lemma generate_next_action_inner_eq : forall sim rng_key tree max_depth,
  inner sim (rng_key, tree, max_depth) =
  (ok (random_split rng_key 3 0,
       step sim rng_key tree max_depth, max_depth),
   let simulate_keys :=
     map (random_split (random_split rng_key 3 1) batch_size)
         (seq 0 batch_size) in
   let pa := simulate simulate_keys tree action_selection_fn max_depth in
   let target := next_node_index batch_size tree (fst pa) (snd pa) sim in
   [EvSimulate sim max_depth; EvExpand sim target; EvBackward sim target]).
Proof.
  intros sim rng_key tree max_depth.
  unfold inner, generate_next_action_inner, step, simulation_step.
  destruct (simulate _ tree action_selection_fn max_depth) as [p a] eqn:E.
  rewrite bindM_tell. cbn [fst snd].
  rewrite bindM_tell. cbn [fst snd].
  rewrite bindM_tell. cbn [fst snd ret].
  reflexivity.
Qed.

Lemma inner_loop : forall n i rng_key tree max_depth,
  exists rng_key' tree' tr,
    fori_loopM_from n i inner (rng_key, tree, max_depth) =
      (ok (rng_key', tree', max_depth), tr) /\
    simulations tr = map (fun s => (s, max_depth)) (seq i n) /\
    expansions tr = seq i n /\
    backwards tr = seq i n /\
    stopping_calls tr = [].
Proof.
  induction n as [|n IH]; intros i rng_key tree max_depth.
  - exists rng_key, tree, []. repeat split; reflexivity.
  - cbn [fori_loopM_from]. rewrite generate_next_action_inner_eq.
    destruct (IH (S i) (random_split rng_key 3 0)
                 (step i rng_key tree max_depth) max_depth)
      as (k' & t' & tr & Heq & Hs & He & Hb & Hc).
    rewrite bindM_ok, Heq. cbn [fst snd].
    eexists k', t', _. split; [reflexivity|].
    cbn [app simulations expansions backwards stopping_calls flat_map].
    fold (simulations tr) (expansions tr) (backwards tr) (stopping_calls tr).
    rewrite Hs, He, Hb, Hc. repeat split; reflexivity.
Qed.

(** ** One round of generation *)

Lemma generate_next_action_eq : forall g rng_key tree max_depth pa stop,
  (forall t, nonempty_rows (visit_probs (summary t))) ->
  exists tree1 action tr,
    sample_action rng_key (visit_probs (summary tree1)) temperature = ok action /\
    round g (rng_key, tree, max_depth, pa, stop) =
      (ok (rng_key, update_root batch_size tree1 action, max_depth - 1,
           at_column_set pa (Z.of_nat g) action,
           stopping_criteria_fn
             (root_embedding batch_size (update_root batch_size tree1 action))),
       tr ++ [EvStoppingCriteria
                (root_embedding batch_size
                   (update_root batch_size tree1 action))]) /\
    simulations tr =
      map (fun s => (s, max_depth)) (seq (g * num_simulations) num_simulations) /\
    expansions tr = seq (g * num_simulations) num_simulations /\
    backwards tr = seq (g * num_simulations) num_simulations /\
    stopping_calls tr = [].
Proof.
  intros g rng_key tree max_depth pa stop Hrows.
  unfold round, generate_next_action, fori_loopM.
  replace ((g + 1) * num_simulations - g * num_simulations)%nat
    with num_simulations by lia.
  destruct (inner_loop num_simulations (g * num_simulations) rng_key tree
              max_depth) as (k' & tree1 & tr & Heq & Hs & He & Hb & Hc).
  fold inner. rewrite Heq, bindM_ok. cbn [fst snd].
  destruct (sample_action_ok rng_key temperature (Hrows tree1))
    as [action [Ha _]].
  exists tree1, action, tr. split; [assumption|].
  rewrite Ha. unfold lift. rewrite bindM_ok. cbn [fst snd app].
  rewrite bindM_tell. cbn [fst snd ret].
  repeat split; assumption.
Qed.

Lemma inner_loop_simulated : forall n i rng_key tree max_depth,
  exists rng_key' tr,
    fori_loopM_from n i inner (rng_key, tree, max_depth) =
      (ok (rng_key',
           simulated params recurrent_fn action_selection_fn batch_size n i
             rng_key tree max_depth,
           max_depth), tr) /\
    simulations tr = map (fun s => (s, max_depth)) (seq i n) /\
    expansions tr = seq i n /\
    backwards tr = seq i n /\
    stopping_calls tr = [].
Proof.
  induction n as [|n IH]; intros i rng_key tree max_depth.
  - exists rng_key, []. repeat split; reflexivity.
  - cbn [fori_loopM_from simulated]. rewrite generate_next_action_inner_eq.
    destruct (IH (S i) (random_split rng_key 3 0)
                 (step i rng_key tree max_depth) max_depth)
      as (k' & tr & Heq & Hs & He & Hb & Hc).
    rewrite bindM_ok, Heq. cbn [fst snd].
    eexists k', _. split; [reflexivity|].
    cbn [app simulations expansions backwards stopping_calls flat_map].
    fold (simulations tr) (expansions tr) (backwards tr) (stopping_calls tr).
    rewrite Hs, He, Hb, Hc. repeat split; reflexivity.
Qed.

Lemma generate_next_action_simulated : forall g rng_key tree max_depth pa stop,
  (forall t, nonempty_rows (visit_probs (summary t))) ->
  let searched :=
    simulated params recurrent_fn action_selection_fn batch_size
      num_simulations (g * num_simulations) rng_key tree max_depth in
  exists action tr,
    sample_action rng_key (visit_probs (summary searched)) temperature =
      ok action /\
    round g (rng_key, tree, max_depth, pa, stop) =
      (ok (rng_key, update_root batch_size searched action, max_depth - 1,
           at_column_set pa (Z.of_nat g) action,
           stopping_criteria_fn
             (root_embedding batch_size
                (update_root batch_size searched action))),
       tr ++ [EvStoppingCriteria
                (root_embedding batch_size
                   (update_root batch_size searched action))]) /\
    simulations tr =
      map (fun s => (s, max_depth)) (seq (g * num_simulations) num_simulations) /\
    expansions tr = seq (g * num_simulations) num_simulations /\
    backwards tr = seq (g * num_simulations) num_simulations /\
    stopping_calls tr = [].
Proof.
  intros g rng_key tree max_depth pa stop Hrows searched.
  unfold round, generate_next_action, fori_loopM.
  replace ((g + 1) * num_simulations - g * num_simulations)%nat
    with num_simulations by lia.
  destruct (inner_loop_simulated num_simulations (g * num_simulations) rng_key
              tree max_depth) as (k' & tr & Heq & Hs & He & Hb & Hc).
  fold inner. rewrite Heq, bindM_ok. cbn [fst snd]. fold searched.
  destruct (sample_action_ok rng_key temperature (Hrows searched))
    as [action [Ha _]].
  exists action, tr. split; [assumption|].
  rewrite Ha. unfold lift. rewrite bindM_ok. cbn [fst snd app].
  rewrite bindM_tell. cbn [fst snd ret].
  repeat split; assumption.
Qed.

(** The target of a simulation, read in [children_index]. *)
Lemma next_node_index_nth_error :
  forall tree parent_index action sim b p a nodes edges child,
    (b < batch_size)%nat ->
    nth_error parent_index b = Some p -> nth_error action b = Some a ->
    0 <= p -> 0 <= a ->
    nth_error (children_index tree) b = Some nodes ->
    nth_error nodes (Z.to_nat p) = Some edges ->
    nth_error edges (Z.to_nat a) = Some child ->
    nth_error (next_node_index batch_size tree parent_index action sim) b =
    Some (if child =? UNVISITED then Z.of_nat sim + 1 else child).
Proof.
  intros tree pi act sim b p a nodes edges child Hb Hp Ha Hp0 Ha0 Hn He Hc.
  unfold next_node_index, batch_range, arange.
  rewrite !map_map, nth_error_map.
  rewrite (nth_error_nth' (seq 0 batch_size) 0%nat)
    by (rewrite length_seq; exact Hb).
  rewrite seq_nth by exact Hb. cbn [option_map Nat.add].
  assert (E : children_index_at tree (Z.of_nat b)
                (gather 0 pi (Z.of_nat b)) (gather 0 act (Z.of_nat b)) =
              child).
  { unfold children_index_at.
    rewrite (@gather_nth_error _ 0 pi (Z.of_nat b) p)
      by (try lia; rewrite Nat2Z.id; exact Hp).
    rewrite (@gather_nth_error _ 0 act (Z.of_nat b) a)
      by (try lia; rewrite Nat2Z.id; exact Ha).
    rewrite (@gather_nth_error _ [] (children_index tree) (Z.of_nat b) nodes)
      by (try lia; rewrite Nat2Z.id; exact Hn).
    rewrite (@gather_nth_error _ [] nodes p edges) by assumption.
    apply gather_nth_error; assumption. }
  rewrite E. reflexivity.
Qed.

Lemma next_node_index_length : forall tree parent_index action sim,
  length (next_node_index batch_size tree parent_index action sim) =
  batch_size.
Proof.
  intros. unfold next_node_index, batch_range, arange.
  rewrite !length_map, length_seq. reflexivity.
Qed.

(** The embedding of the root of batch element [b], as the stopping
    criterion gets it. *)
Lemma root_embedding_nth_error : forall tree b row i e,
  (b < batch_size)%nat ->
  length (embeddings tree) = batch_size ->
  length (root_index tree) = batch_size ->
  Forall (fun r => r <> []) (embeddings tree) ->
  nth_error (embeddings tree) b = Some row ->
  nth_error (root_index tree) b = Some i ->
  gather_opt row i = Some e ->
  nth_error (root_embedding batch_size tree) b = Some e.
Proof.
  intros tree b row i e Hb Hemb Hri Hne Hrow Hi He.
  unfold root_embedding, batch_range, arange.
  apply (@flat_map_singletons_nth_error _ _ _ _ b (Z.of_nat b)).
  - intros y Hy. apply in_map_iff in Hy. destruct Hy as (b' & <- & Hb').
    apply in_seq in Hb'.
    rewrite gather_of_nat by lia.
    assert (Hr : nth b' (embeddings tree) [] <> []).
    { rewrite Forall_forall in Hne. apply Hne. apply nth_In. lia. }
    destruct (gather_opt_nonempty (gather 0 (root_index tree) (Z.of_nat b'))
                Hr) as [v Hv].
    rewrite Hv. eauto.
  - rewrite nth_error_map.
    rewrite (nth_error_nth' (seq 0 batch_size) 0%nat)
      by (rewrite length_seq; exact Hb).
    rewrite seq_nth by exact Hb. reflexivity.
  - rewrite !gather_of_nat by lia.
    rewrite (nth_error_nth _ _ [] Hrow), (nth_error_nth _ _ 0 Hi), He.
    reflexivity.
Qed.

Lemma wrapper_stopped : forall g st, stopped st = true -> wrapper g st = ret st.
Proof.
  intros g [[[[k t] d] pa] s] H. unfold stopped in H.
  unfold wrapper, generate_next_action_stopping_wrapper, cond.
  destruct s; [reflexivity|]. simpl in H. rewrite H. reflexivity.
Qed.

Lemma wrapper_running : forall g st, stopped st = false -> wrapper g st = round g st.
Proof.
  intros g [[[[k t] d] pa] s] H. unfold stopped in H.
  unfold wrapper, generate_next_action_stopping_wrapper, cond.
  destruct s; [discriminate|]. simpl in H. rewrite H. reflexivity.
Qed.

Lemma stopped_loop : forall m i st,
  stopped st = true -> fori_loopM_from m i wrapper st = ret st.
Proof.
  induction m as [|m IH]; intros i st H; cbn [fori_loopM_from].
  - reflexivity.
  - rewrite (wrapper_stopped _ _ H), bindM_ret_l. apply IH. assumption.
Qed.

(** ** The generation loop *)

Lemma flat_map_ext_In : forall (A B : Type) (f g : A -> list B) (l : list A),
  (forall a, In a l -> f a = g a) -> flat_map f l = flat_map g l.
Proof.
  intros A B f g l. induction l as [|a l IH]; intros H; simpl.
  - reflexivity.
  - rewrite (H a (or_introl eq_refl)), IH; [reflexivity|].
    intros b Hb. apply H. right. assumption.
Qed.

Lemma round_simulations_S : forall n max_depth i r,
  round_simulations n max_depth i (S r) =
  map (fun s => (s, max_depth)) (seq (i * n) n) ++
  round_simulations n (max_depth - 1) (S i) r.
Proof.
  intros n max_depth i r. unfold round_simulations. cbn [seq flat_map].
  f_equal.
  - apply map_ext. intros s. rewrite Nat.sub_diag. f_equal. simpl. lia.
  - apply flat_map_ext_In. intros g Hg. apply in_seq in Hg.
    apply map_ext. intros s. f_equal. lia.
Qed.

Lemma map_fst_round_simulations : forall n max_depth r i,
  map fst (round_simulations n max_depth i r) = seq (i * n) (r * n).
Proof.
  intros n max_depth r. revert max_depth.
  induction r as [|r IH]; intros max_depth i.
  - reflexivity.
  - rewrite round_simulations_S, map_app, map_map, IH. cbn [fst].
    rewrite map_id.
    replace (S r * n)%nat with (n + r * n)%nat by lia.
    rewrite seq_app. f_equal. f_equal. lia.
Qed.

Lemma columns_unset_at_column_set : forall pa i K action,
  columns_unset pa i K ->
  columns_unset (at_column_set pa (Z.of_nat i) action) (S i) K.
Proof.
  intros pa i K action H. unfold columns_unset in *.
  revert action. induction H as [|row pa [Hlen Hrow] _ IH]; intros action; simpl.
  - constructor.
  - destruct action as [|a action]; constructor; try apply IH.
    + split; [assumption|]. intros j Hj. apply Hrow. lia.
    + split; [rewrite at_set_length; assumption|].
      intros j Hj. rewrite at_set_nth_other by lia. apply Hrow. lia.
Qed.

Lemma outer_loop : forall m i rng_key tree max_depth pa stop K,
  (forall t, nonempty_rows (visit_probs (summary t))) ->
  columns_unset pa i K ->
  exists r tree' pa' stop' tr,
    fori_loopM_from m i wrapper (rng_key, tree, max_depth, pa, stop) =
      (ok (rng_key, tree', max_depth - Z.of_nat r, pa', stop'), tr) /\
    (r <= m)%nat /\
    simulations tr = round_simulations num_simulations max_depth i r /\
    expansions tr = seq (i * num_simulations) (r * num_simulations) /\
    backwards tr = seq (i * num_simulations) (r * num_simulations) /\
    length (stopping_calls tr) = r /\
    length pa' = length pa /\
    columns_unset pa' (i + r) K /\
    ((r < m)%nat ->
     stopped (rng_key, tree', max_depth - Z.of_nat r, pa', stop') = true).
Proof.
  induction m as [|m IH]; intros i rng_key tree max_depth pa stop K Hrows Hpa.
  - exists O, tree, pa, stop, []. cbn [fori_loopM_from Z.of_nat].
    rewrite Z.sub_0_r, Nat.add_0_r.
    repeat split; try reflexivity; try assumption. lia.
  - destruct (stopped (rng_key, tree, max_depth, pa, stop)) eqn:Hst.
    + exists O, tree, pa, stop, []. rewrite (stopped_loop _ _ _ Hst).
      cbn [Z.of_nat]. rewrite Z.sub_0_r, Nat.add_0_r.
      repeat split; try reflexivity; try assumption; try lia.
      intros _. assumption.
    + cbn [fori_loopM_from]. rewrite (wrapper_running _ _ Hst).
      destruct (generate_next_action_eq i rng_key tree max_depth pa stop Hrows)
        as (tree1 & action & tr0 & _ & Heq & Hs & He & Hb & Hc).
      rewrite Heq, bindM_ok. cbn [fst snd].
      destruct (IH (S i) rng_key (update_root batch_size tree1 action)
                   (max_depth - 1) (at_column_set pa (Z.of_nat i) action)
                   (stopping_criteria_fn
                      (root_embedding batch_size
                         (update_root batch_size tree1 action)))
                   K Hrows (columns_unset_at_column_set action Hpa))
        as (r & tree' & pa' & stop' & tr & Heq' & Hr & Hs' & He' & Hb' & Hc'
            & Hlen & Hcols & Hstop).
      rewrite Heq'. cbn [fst snd].
      replace (max_depth - 1 - Z.of_nat r) with (max_depth - Z.of_nat (S r))
        in * by lia.
      exists (S r), tree', pa', stop', ((tr0 ++ [EvStoppingCriteria
                (root_embedding batch_size
                   (update_root batch_size tree1 action))]) ++ tr).
      split; [reflexivity|].
      rewrite !simulations_app, !expansions_app, !backwards_app,
        !stopping_calls_app, Hs, He, Hb, Hc, Hs', He', Hb'.
      cbn [simulations expansions backwards stopping_calls flat_map app].
      rewrite !app_nil_r, round_simulations_S.
      replace (i + S r)%nat with (S i + r)%nat by lia.
      rewrite at_column_set_length in Hlen.
      repeat split; try assumption; try reflexivity.
      * lia.
      * replace (S r * num_simulations)%nat
          with (num_simulations + r * num_simulations)%nat by lia.
        rewrite seq_app. f_equal. f_equal. lia.
      * replace (S r * num_simulations)%nat
          with (num_simulations + r * num_simulations)%nat by lia.
        rewrite seq_app. f_equal. f_equal. lia.
      * simpl. rewrite Hc'. reflexivity.
      * intros Hlt. apply Hstop. lia.
Qed.

End GenerationLoopFacts.

(** ** The whole call *)

Lemma columns_unset_full : forall B K,
  columns_unset (full B (full K (-1))) 0 K.
Proof.
  intros B K. unfold columns_unset, full. apply Forall_forall.
  intros row Hrow. apply repeat_spec in Hrow. subst row. split.
  - apply repeat_length.
  - intros j Hj. apply nth_repeat_lt. lia.
Qed.

Lemma root_with_dirichlet_noise_None : forall key root fraction alpha,
  exists root',
    root_with_dirichlet_noise key root None fraction alpha = ok root' /\
    value root' = value root.
Proof.
  intros key root fraction alpha. eexists. split; reflexivity.
Qed.

Lemma muzero_policy_for_action_sequence_eq :
  forall params rng_key root recurrent_fn num_simulations stopping_criteria_fn
         max_depth qtransform dirichlet_fraction dirichlet_alpha pb_c_init
         pb_c_base temperature extra_data num_actions_to_generate,
  (forall t, nonempty_rows (visit_probs (summary t))) ->
  exists r tree' pa' tr,
    muzero_policy_for_action_sequence params rng_key root recurrent_fn
      num_simulations stopping_criteria_fn None max_depth qtransform
      dirichlet_fraction dirichlet_alpha pb_c_init pb_c_base temperature
      extra_data num_actions_to_generate =
    (ok {| action := pa'; action_weights := []; search_tree := tree' |},
     EvInstantiateTree (num_actions_to_generate * num_simulations) :: tr) /\
    (r <= num_actions_to_generate)%nat /\
    simulations tr =
      round_simulations num_simulations
        (match max_depth with
         | None => Z.of_nat (num_simulations * num_actions_to_generate)
         | Some d => d
         end) 0 r /\
    expansions tr = seq 0 (r * num_simulations) /\
    backwards tr = seq 0 (r * num_simulations) /\
    length (stopping_calls tr) = r /\
    length pa' = length (value root) /\
    columns_unset pa' r num_actions_to_generate.
Proof.
  intros params rng_key root recurrent_fn n stop max_depth qt df da c1 c2 temp
         ed K Hrows.
  unfold muzero_policy_for_action_sequence.
  destruct (root_with_dirichlet_noise_None (random_split rng_key 3 1) root df da)
    as [root' [Hroot Hval]].
  rewrite Hroot. unfold lift. rewrite bindM_ok. cbn [fst snd app].
  rewrite bindM_tell. cbn [fst snd].
  match goal with
  | |- context [fori_loopM 0 K ?w (?k, ?t, ?d, ?pa, ?s)] =>
      destruct (@outer_loop params recurrent_fn n stop temp
                  (switching_action_selection_wrapper
                     (muzero_action_selection c2 c1 qt (Some 0))
                     (muzero_action_selection c2 c1 qt None))
                  (length (value root')) K 0%nat k t d pa s K Hrows
                  (columns_unset_full (length (value root')) K))
        as (r & tree' & pa' & stop' & tr & Heq & Hr & Hs & He & Hb & Hc
            & Hlen & Hcols & _)
  end.
  unfold fori_loopM. rewrite Nat.sub_0_r, Heq, bindM_ok. cbn [fst snd ret].
  exists r, tree', pa', tr. rewrite app_nil_r.
  split; [reflexivity|].
  unfold full in Hlen. rewrite repeat_length, Hval in Hlen.
  repeat split; assumption.
Qed.

(** ** Floating point facts *)

Lemma Rltb_true : forall x y, (x < y)%R -> Rltb x y = true.
Proof. intros x y H. unfold Rltb. destruct (Rlt_dec x y); [reflexivity | lra]. Qed.

Lemma Rltb_false : forall x y, (y <= x)%R -> Rltb x y = false.
Proof. intros x y H. unfold Rltb. destruct (Rlt_dec x y); [lra | reflexivity]. Qed.

Lemma finfo_tiny_pos : (0 < finfo_tiny)%R.
Proof. unfold finfo_tiny. apply Rinv_0_lt_compat, pow_lt. lra. Qed.

Lemma fmaximum_Fin : forall a b, fmaximum (Fin a) (Fin b) = Fin (Rmax a b).
Proof.
  intros a b. unfold fmaximum, flt, Rltb, Rmax.
  destruct (Rlt_dec a b), (Rle_dec a b); try reflexivity; try lra.
  f_equal. lra.
Qed.

Lemma pow2_ge_1 : forall n, (1 <= 2 ^ n)%R.
Proof. intros n. apply pow_R1_Rle. lra. Qed.

Lemma pow2_pos : forall n, (0 < 2 ^ n)%R.
Proof. intros n. apply pow_lt. lra. Qed.

Lemma finfo_min_max : finfo_min = (- finfo_max)%R.
Proof. reflexivity. Qed.

Lemma finfo_max_ge : (2 ^ 127 <= finfo_max)%R.
Proof.
  unfold finfo_max. pose proof (pow2_ge_1 23) as H23.
  pose proof (pow2_pos 127) as H127.
  assert (/ 2 ^ 23 <= 1)%R.
  { rewrite <- Rinv_1. apply Rinv_le_contravar; lra. }
  nra.
Qed.

Lemma finfo_max_pos : (0 < finfo_max)%R.
Proof. pose proof finfo_max_ge. pose proof (pow2_pos 127). lra. Qed.

(** The largest finite value is above [2 ^ 40], and so above [10 ^ 12]. *)
Lemma finfo_max_large : (10 ^ 12 <= finfo_max)%R.
Proof.
  eapply Rle_trans; [|exact finfo_max_ge].
  replace 127%nat with (40 + 87)%nat by reflexivity. rewrite pow_add.
  pose proof (pow2_ge_1 87) as H87.
  assert (H40 : (10 ^ 12 <= 2 ^ 40)%R) by (simpl; lra).
  pose proof (pow2_pos 40). nra.
Qed.

Lemma finfo_tiny_le_1 : (finfo_tiny <= 1)%R.
Proof.
  unfold finfo_tiny. rewrite <- Rinv_1.
  apply Rinv_le_contravar; [lra | apply pow2_ge_1].
Qed.

Lemma representable_0 : representable 0.
Proof.
  unfold representable. rewrite finfo_min_max. pose proof finfo_max_pos. lra.
Qed.

Lemma fround_exact : forall x, representable x -> fround x = Fin x.
Proof.
  intros x [H1 H2]. unfold fround.
  rewrite (Rltb_false H2), (Rltb_false H1). reflexivity.
Qed.

Lemma fround_pos_overflow : forall x, (finfo_max < x)%R -> fround x = PosInf.
Proof. intros x H. unfold fround. rewrite (Rltb_true H). reflexivity. Qed.

Lemma fround_neg_overflow : forall x, (x < finfo_min)%R -> fround x = NegInf.
Proof.
  intros x H. unfold fround. rewrite (Rltb_true H).
  rewrite Rltb_false; [reflexivity|].
  rewrite finfo_min_max in H. pose proof finfo_max_pos. lra.
Qed.

(** An operation returns the exact result, or overflows. *)
Lemma fround_cases : forall x,
  (fround x = Fin x /\ representable x) \/
  (fround x = PosInf /\ (finfo_max < x)%R) \/
  (fround x = NegInf /\ (x < finfo_min)%R).
Proof.
  intros x. destruct (Rlt_dec finfo_max x) as [H | H].
  - right. left. split; [apply fround_pos_overflow|]; assumption.
  - destruct (Rlt_dec x finfo_min) as [H' | H'].
    + right. right. split; [apply fround_neg_overflow|]; assumption.
    + left. split; [apply fround_exact|]; split; lra.
Qed.


Lemma fsub_Fin : forall a b,
  representable (a - b) -> fsub (Fin a) (Fin b) = Fin (a - b).
Proof. intros a b H. unfold fsub, fneg, fadd. apply fround_exact. exact H. Qed.

Lemma fadd_Fin : forall a b,
  representable (a + b) -> fadd (Fin a) (Fin b) = Fin (a + b).
Proof. intros a b H. unfold fadd. apply fround_exact. exact H. Qed.

Lemma fold_fmaximum_Fin : forall xs x,
  fold_left fmaximum (map Fin xs) (Fin x) = Fin (fold_left Rmax xs x).
Proof.
  intros xs. induction xs as [|y xs IH]; intros x; cbn [fold_left map].
  - reflexivity.
  - rewrite fmaximum_Fin. apply IH.
Qed.

Lemma fold_Rmax_ge_init : forall xs x, (x <= fold_left Rmax xs x)%R.
Proof.
  intros xs. induction xs as [|y xs IH]; intros x; simpl.
  - lra.
  - eapply Rle_trans; [apply Rmax_l | apply IH].
Qed.

Lemma fold_Rmax_ge : forall xs x y, In y xs -> (y <= fold_left Rmax xs x)%R.
Proof.
  intros xs. induction xs as [|z xs IH]; intros x y H; simpl in *.
  - contradiction.
  - destruct H as [-> | H].
    + eapply Rle_trans; [apply Rmax_r | apply fold_Rmax_ge_init].
    + apply IH. assumption.
Qed.

Lemma fold_Rmax_In : forall xs x,
  fold_left Rmax xs x = x \/ In (fold_left Rmax xs x) xs.
Proof.
  intros xs. induction xs as [|z xs IH]; intros x; simpl.
  - left. reflexivity.
  - destruct (IH (Rmax x z)) as [E | E].
    + rewrite E. unfold Rmax. destruct (Rle_dec x z); auto.
    + right. right. assumption.
Qed.

Lemma Rrow_max_ge : forall xs y, In y xs -> (y <= Rrow_max xs)%R.
Proof.
  intros [|x r] y H; simpl in *; [contradiction|].
  destruct H as [-> | H]; [apply fold_Rmax_ge_init | apply fold_Rmax_ge; assumption].
Qed.

Lemma Rrow_max_In : forall xs, xs <> [] -> In (Rrow_max xs) xs.
Proof.
  intros [|x r] H; [congruence|]. simpl.
  destruct (fold_Rmax_In r x) as [E | E]; [left; auto | right; assumption].
Qed.

(** Subtracting the row maximum does not overflow when no entry is further
    than the largest finite value below it. *)
Lemma representable_below_max : forall xs x,
  In x xs -> (Rrow_max xs - x <= finfo_max)%R ->
  representable (x - Rrow_max xs).
Proof.
  intros xs x Hin H. pose proof (Rrow_max_ge xs x Hin) as Hle.
  unfold representable. rewrite finfo_min_max. pose proof finfo_max_pos.
  split; lra.
Qed.

Lemma row_max_Fin : forall xs,
  xs <> [] -> row_max (map Fin xs) = ok (Fin (Rrow_max xs)).
Proof.
  intros [|x r] H; [congruence|]. simpl. rewrite fold_fmaximum_Fin. reflexivity.
Qed.

Lemma sub_row_max_Fin : forall xs,
  xs <> [] -> within_spread xs ->
  sub_row_max (map Fin xs) = ok (map Fin (map (fun x => x - Rrow_max xs)%R xs)).
Proof.
  intros xs H Hs. unfold sub_row_max. rewrite row_max_Fin by assumption.
  cbn [bind ok]. f_equal. rewrite !map_map. apply map_ext_in.
  intros x Hx. apply fsub_Fin. apply representable_below_max; auto.
Qed.

Lemma map_Fin_finite : forall xs, Forall is_finite (map Fin xs).
Proof.
  intros xs. induction xs; simpl; constructor; simpl; auto.
Qed.

Lemma where_row_finite : forall m c x,
  is_finite c -> Forall is_finite x -> Forall is_finite (where_row m c x).
Proof.
  intros m c x Hc H. revert m.
  induction H as [|v x Hv _ IH]; intros [|[|] m]; simpl; constructor; auto.
Qed.

Lemma where_row_nth_error : forall m c x a,
  nth_error (where_row m c x) a =
  match nth_error m a, nth_error x a with
  | Some true, Some _ => Some c
  | Some false, Some v => Some v
  | _, _ => None
  end.
Proof.
  intros m. induction m as [|b m IH]; intros c x a; simpl.
  - destruct a; reflexivity.
  - destruct x as [|v x]; simpl.
    + destruct a as [|a]; simpl; [destruct b; reflexivity|].
      destruct (nth_error m a) as [[|]|]; reflexivity.
    + destruct a as [|a]; simpl; [destruct b; reflexivity | apply IH].
Qed.

Lemma where_rows_nth_error : forall m c x b,
  nth_error (where_rows m c x) b =
  match nth_error m b, nth_error x b with
  | Some mrow, Some row => Some (where_row mrow c row)
  | _, _ => None
  end.
Proof.
  intros m. induction m as [|r m IH]; intros c x b; simpl.
  - destruct b; reflexivity.
  - destruct x as [|v x]; simpl.
    + destruct b as [|b]; simpl; [reflexivity|].
      destruct (nth_error m b); reflexivity.
    + destruct b as [|b]; simpl; [reflexivity | apply IH].
Qed.

Lemma where_rows_finite : forall m c x,
  is_finite c -> Forall (Forall is_finite) x ->
  Forall (Forall is_finite) (where_rows m c x).
Proof.
  intros m c x Hc H. revert m.
  induction H as [|v x Hv _ IH]; intros [|r m]; simpl; constructor; auto.
  apply where_row_finite; assumption.
Qed.

Lemma flog_fmaximum_tiny : forall p,
  p <> NaN ->
  flog (fmaximum p (Fin finfo_tiny)) <> NaN /\
  flog (fmaximum p (Fin finfo_tiny)) <> NegInf.
Proof.
  pose proof finfo_tiny_pos as Ht.
  intros [| | |x] H; try congruence.
  - simpl. rewrite (Rltb_true Ht). split; discriminate.
  - simpl. split; discriminate.
  - rewrite fmaximum_Fin. simpl.
    assert (0 < Rmax x finfo_tiny)%R
      by (eapply Rlt_le_trans; [exact Ht | apply Rmax_r]).
    rewrite Rltb_true by assumption. split; discriminate.
Qed.

Lemma flog_fmaximum_tiny_Fin : forall x,
  flog (fmaximum (Fin x) (Fin finfo_tiny)) = Fin (ln (Rmax x finfo_tiny)).
Proof.
  intros x. pose proof finfo_tiny_pos as Ht.
  rewrite fmaximum_Fin. simpl.
  assert (0 < Rmax x finfo_tiny)%R
    by (eapply Rlt_le_trans; [exact Ht | apply Rmax_r]).
  rewrite Rltb_true by assumption. reflexivity.
Qed.

Lemma fadd_fscale_zero : forall p x,
  is_float p -> representable x ->
  fadd (fscale (1 - 0) p) (fscale 0 (Fin x)) = p.
Proof.
  intros [| | |y] x Hp Hx; cbn [fscale].
  - reflexivity.
  - rewrite Rltb_true by lra. rewrite Rmult_0_l.
    rewrite (fround_exact representable_0). reflexivity.
  - rewrite Rltb_true by lra. rewrite Rmult_0_l.
    rewrite (fround_exact representable_0). reflexivity.
  - rewrite Rmult_0_l, (fround_exact representable_0).
    replace ((1 - 0) * y)%R with y by lra.
    rewrite (fround_exact Hp). cbn [fadd].
    replace (y + 0)%R with y by lra. apply fround_exact. exact Hp.
Qed.

(** ** The first maximum *)








(** ** Scores of the Gumbel policy *)












Lemma where_rows_length : forall m c x,
  length m = length x -> length (where_rows m c x) = length x.
Proof.
  intros m. induction m as [|r m IH]; intros c [|row x] H; simpl in *;
    try discriminate; try reflexivity.
  rewrite IH by lia. reflexivity.
Qed.

Lemma where_row_length : forall m c x,
  length m = length x -> length (where_row m c x) = length x.
Proof.
  intros m. induction m as [|r m IH]; intros c [|row x] H; simpl in *;
    try discriminate; try reflexivity.
  rewrite IH by lia. reflexivity.
Qed.

Lemma Forall2_nth_error_l : forall (A B : Type) (R : A -> B -> Prop) l l' i a,
  Forall2 R l l' -> nth_error l i = Some a ->
  exists b, nth_error l' i = Some b /\ R a b.
Proof.
  intros A B R l l' i a H. revert i.
  induction H as [|x y l l' Hxy _ IH]; intros [|i] Hi; simpl in *;
    try discriminate.
  - injection Hi as <-. eauto.
  - apply IH. assumption.
Qed.



(** ** Arrays of finite values *)








Lemma mapM_sub_row_max_Fin : forall xs,
  nonempty_rows xs -> Forall within_spread xs ->
  mapM sub_row_max (map (map Fin) xs) =
  ok (map (map Fin)
          (map (fun row => map (fun x => x - Rrow_max row)%R row) xs)).
Proof.
  intros xs H. induction H as [|row xs Hrow _ IH]; intros Hs; cbn [mapM map].
  - reflexivity.
  - inversion Hs; subst.
    rewrite sub_row_max_Fin by assumption. cbn [bind ok]. rewrite IH by assumption.
    reflexivity.
Qed.










Lemma In_imap : forall (T U : Type) (f : nat -> T -> U) (l : list T) y,
  In y (imap f l) ->
  exists a x, nth_error l a = Some x /\ y = f a x.
Proof.
  intros T U f l y H. apply In_nth_error in H. destruct H as [a Ha].
  unfold imap in Ha. rewrite imap_from_nth_error in Ha. cbn [Nat.add] in Ha.
  destruct (nth_error l a) as [x|] eqn:E; [|discriminate].
  injection Ha as <-. eauto.
Qed.







(** ** Claims on the multi-step policy *)

(** C2. A call of [muzero_policy_for_action_sequence] with an invalid-actions
    mask raises [NotImplementedError] at once: whatever the mask and the other
    arguments are, the call performs no event at all (the tree is not
    allocated, no simulation runs, the model is not called, the stopping
    criterion is not asked) and it returns no policy output. *)
Theorem invalid_actions_rejected_before_search :
  forall params rng_key root recurrent_fn num_simulations stopping_criteria_fn
         mask max_depth qtransform dirichlet_fraction dirichlet_alpha pb_c_init
         pb_c_base temperature extra_data num_actions_to_generate,
    muzero_policy_for_action_sequence params rng_key root recurrent_fn
      num_simulations stopping_criteria_fn (Some mask) max_depth qtransform
      dirichlet_fraction dirichlet_alpha pb_c_init pb_c_base temperature
      extra_data num_actions_to_generate =
    (raise NotImplementedError, []).
Proof.
  intros. unfold muzero_policy_for_action_sequence, fail. reflexivity.
Qed.

(** C3. The simulation with loop counter [sim] (the [sim + 1]-th simulation,
    the initial root being node 0) gives one target node per batch element to
    [expand] and, the same one, to [backward]. For the batch element [b],
    with [p] the node and [a] the action that [simulate] returned, and
    [child] the entry [children_index[b, p, a]] of the tree: the target is
    the new node [sim + 1] when [child] is [UNVISITED], and the existing
    child [child] otherwise. *)
Theorem new_node_index_is_simulation_number :
  forall params recurrent_fn action_selection_fn batch_size sim rng_key tree
         max_depth,
    let simulate_keys :=
      map (random_split (random_split rng_key 3 1) batch_size)
          (seq 0 batch_size) in
    let chosen := simulate simulate_keys tree action_selection_fn max_depth in
    exists target,
      generate_next_action_inner params recurrent_fn action_selection_fn
        batch_size sim (rng_key, tree, max_depth) =
      (ok (random_split rng_key 3 0,
           backward
             (expand params (random_split rng_key 3 2) tree recurrent_fn
                (fst chosen) (snd chosen) target)
             target,
           max_depth),
       [EvSimulate sim max_depth; EvExpand sim target; EvBackward sim target])
      /\
      length target = batch_size /\
      forall b p a nodes edges child,
        (b < batch_size)%nat ->
        nth_error (fst chosen) b = Some p ->
        nth_error (snd chosen) b = Some a ->
        0 <= p -> 0 <= a ->
        nth_error (children_index tree) b = Some nodes ->
        nth_error nodes (Z.to_nat p) = Some edges ->
        nth_error edges (Z.to_nat a) = Some child ->
        nth_error target b =
        Some (if child =? UNVISITED then Z.of_nat sim + 1 else child).
Proof.
  intros params recurrent_fn asf B sim rng_key tree max_depth keys chosen.
  exists (next_node_index B tree (fst chosen) (snd chosen) sim).
  split; [|split].
  - rewrite generate_next_action_inner_eq. reflexivity.
  - apply next_node_index_length.
  - intros b p a nodes edges child Hb Hp Ha Hp0 Ha0 Hn He Hc.
    eapply next_node_index_nth_error; eassumption.
Qed.

(** C4. A round that the generation loop executes (its state has not
    stopped) runs the simulate/expand/backward cycle [num_simulations] times,
    with the loop counters [g * num_simulations] to
    [(g + 1) * num_simulations - 1] in order, on the tree of the state; it
    then samples the action from the visit probabilities of the tree so
    searched, re-roots this tree and asks the stopping criterion exactly
    once, as the last event; the answer becomes the [stop_generating] of the
    next state. The criterion gets, for every batch element, the embedding
    stored at the new root index of the re-rooted tree. Over a whole call
    that executes [r] rounds, the cycle runs for the counters
    [0 .. r * num_simulations - 1] and the stopping criterion is asked [r]
    times. *)
Theorem executed_round_runs_num_simulations :
  forall params recurrent_fn num_simulations stopping_criteria_fn temperature,
    (forall t, nonempty_rows (visit_probs (summary t))) ->
    (forall action_selection_fn batch_size g rng_key tree max_depth
            performed_actions stop_generating,
        stopped (rng_key, tree, max_depth, performed_actions, stop_generating)
          = false ->
        let searched :=
          simulated params recurrent_fn action_selection_fn batch_size
            num_simulations (g * num_simulations) rng_key tree max_depth in
        exists action tr,
          let new_tree := update_root batch_size searched action in
          let asked := root_embedding batch_size new_tree in
          sample_action rng_key (visit_probs (summary searched)) temperature =
            ok action /\
          generate_next_action_stopping_wrapper params recurrent_fn
            num_simulations stopping_criteria_fn temperature
            action_selection_fn batch_size g
            (rng_key, tree, max_depth, performed_actions, stop_generating) =
          (ok (rng_key, new_tree, max_depth - 1,
               at_column_set performed_actions (Z.of_nat g) action,
               stopping_criteria_fn asked),
           tr ++ [EvStoppingCriteria asked]) /\
          map fst (simulations tr) =
            seq (g * num_simulations) num_simulations /\
          expansions tr = seq (g * num_simulations) num_simulations /\
          backwards tr = seq (g * num_simulations) num_simulations /\
          stopping_calls tr = [] /\
          (length (embeddings new_tree) = batch_size ->
           length (root_index new_tree) = batch_size ->
           Forall (fun row => row <> []) (embeddings new_tree) ->
           length asked = batch_size /\
           forall b row i e,
             nth_error (embeddings new_tree) b = Some row ->
             nth_error (root_index new_tree) b = Some i ->
             0 <= i ->
             nth_error row (Z.to_nat i) = Some e ->
             nth_error asked b = Some e)) /\
    (forall rng_key root max_depth qtransform dirichlet_fraction
            dirichlet_alpha pb_c_init pb_c_base extra_data
            num_actions_to_generate,
        exists r out tr,
          muzero_policy_for_action_sequence params rng_key root recurrent_fn
            num_simulations stopping_criteria_fn None max_depth qtransform
            dirichlet_fraction dirichlet_alpha pb_c_init pb_c_base temperature
            extra_data num_actions_to_generate =
          (ok out,
           EvInstantiateTree (num_actions_to_generate * num_simulations)
             :: tr) /\
          (r <= num_actions_to_generate)%nat /\
          map fst (simulations tr) = seq 0 (r * num_simulations) /\
          expansions tr = seq 0 (r * num_simulations) /\
          backwards tr = seq 0 (r * num_simulations) /\
          length (stopping_calls tr) = r).
Proof.
  intros params recurrent_fn n stop temp Hrows. split.
  - intros asf B g rng_key tree max_depth pa s Hrun searched.
    rewrite wrapper_running by assumption.
    destruct (@generate_next_action_simulated params recurrent_fn n stop temp
                asf B g rng_key tree max_depth pa s Hrows)
      as (action & tr & Ha & Heq & Hs & He & Hb & Hc).
    exists action, tr. cbv zeta. fold searched.
    split; [exact Ha|]. split; [exact Heq|]. split.
    { rewrite Hs, map_map. cbn [fst]. apply map_id. }
    split; [exact He|]. split; [exact Hb|]. split; [exact Hc|].
    intros Hemb Hri Hne. split.
    + unfold root_embedding, batch_range, arange.
      rewrite (flat_map_constant_length (c := 1%nat)).
      * rewrite length_map, length_seq. lia.
      * intros y Hy. apply in_map_iff in Hy. destruct Hy as (b' & <- & Hb').
        apply in_seq in Hb'. rewrite gather_of_nat by lia.
        assert (Hr : nth b' (embeddings (update_root B searched action)) []
                     <> []).
        { rewrite Forall_forall in Hne. apply Hne. apply nth_In. lia. }
        destruct (gather_opt_nonempty
                    (gather 0 (root_index (update_root B searched action))
                       (Z.of_nat b')) Hr) as [v Hv].
        rewrite Hv. reflexivity.
    + intros b row i e Hrow Hi Hi0 He'.
      assert (Hlt : (b < B)%nat)
        by (rewrite <- Hemb; apply nth_error_Some; congruence).
      eapply root_embedding_nth_error; try eassumption.
      apply gather_opt_nth_error; assumption.
  - intros rng_key root max_depth qt df da c1 c2 ed K.
    destruct (@muzero_policy_for_action_sequence_eq params rng_key root
                recurrent_fn n stop max_depth qt df da c1 c2 temp ed K Hrows)
      as (r & tree' & pa' & tr & Heq & Hr & Hs & He & Hb & Hc & _).
    eexists r, _, tr. split; [exact Heq|].
    rewrite Hs, map_fst_round_simulations. simpl.
    repeat split; assumption.
Qed.

(** C6 (amended). When [max_depth] is left unset, the multi-step policy
    starts the search with [max_depth = num_simulations *
    num_actions_to_generate], and every executed round lowers it by one: the
    simulations of round [g] are run with
    [num_simulations * num_actions_to_generate - g]. *)
Theorem default_max_depth_is_total_simulation_budget :
  forall params rng_key root recurrent_fn num_simulations stopping_criteria_fn
         qtransform dirichlet_fraction dirichlet_alpha pb_c_init pb_c_base
         temperature extra_data num_actions_to_generate,
    (forall t, nonempty_rows (visit_probs (summary t))) ->
    exists out tr,
      muzero_policy_for_action_sequence params rng_key root recurrent_fn
        num_simulations stopping_criteria_fn None None qtransform
        dirichlet_fraction dirichlet_alpha pb_c_init pb_c_base temperature
        extra_data num_actions_to_generate =
      (ok out,
       EvInstantiateTree (num_actions_to_generate * num_simulations) :: tr) /\
      simulations tr =
        round_simulations num_simulations
          (Z.of_nat (num_simulations * num_actions_to_generate)) 0
          (length (stopping_calls tr)).
Proof.
  intros params rng_key root recurrent_fn n stop qt df da c1 c2 temp ed K Hrows.
  destruct (@muzero_policy_for_action_sequence_eq params rng_key root
              recurrent_fn n stop None qt df da c1 c2 temp ed K Hrows)
    as (r & tree' & pa' & tr & Heq & _ & Hs & _ & _ & Hc & _).
  eexists _, tr. split; [exact Heq|]. rewrite Hc. exact Hs.
Qed.


(** C10. Once [stop_generating] is true, or the [max_depth] countdown is 0,
    the wrapper returns its loop state unchanged and so does the rest of the
    generation loop, without any event. A call therefore returns an action
    array of [B] rows and [num_actions_to_generate] columns in which every
    column of a round that was not executed still holds [-1], and its
    [action_weights] is the empty array. *)
Theorem stopped_generation_leaves_state_unchanged :
  forall params recurrent_fn num_simulations stopping_criteria_fn temperature,
    (forall t, nonempty_rows (visit_probs (summary t))) ->
    (forall action_selection_fn batch_size g rng_key tree max_depth
            performed_actions,
        generate_next_action_stopping_wrapper params recurrent_fn
          num_simulations stopping_criteria_fn temperature action_selection_fn
          batch_size g (rng_key, tree, max_depth, performed_actions, true) =
        ret (rng_key, tree, max_depth, performed_actions, true)) /\
    (forall action_selection_fn batch_size g rng_key tree performed_actions
            stop_generating,
        generate_next_action_stopping_wrapper params recurrent_fn
          num_simulations stopping_criteria_fn temperature action_selection_fn
          batch_size g (rng_key, tree, 0, performed_actions, stop_generating) =
        ret (rng_key, tree, 0, performed_actions, stop_generating)) /\
    (forall action_selection_fn batch_size lower upper loop_state,
        stopped loop_state = true ->
        fori_loopM lower upper
          (generate_next_action_stopping_wrapper params recurrent_fn
             num_simulations stopping_criteria_fn temperature
             action_selection_fn batch_size)
          loop_state =
        ret loop_state) /\
    (forall rng_key root max_depth qtransform dirichlet_fraction
            dirichlet_alpha pb_c_init pb_c_base extra_data
            num_actions_to_generate,
        exists out tr,
          muzero_policy_for_action_sequence params rng_key root recurrent_fn
            num_simulations stopping_criteria_fn None max_depth qtransform
            dirichlet_fraction dirichlet_alpha pb_c_init pb_c_base temperature
            extra_data num_actions_to_generate =
          (ok out, tr) /\
          action_weights out = [] /\
          length (action out) = length (value root) /\
          (length (stopping_calls tr) <= num_actions_to_generate)%nat /\
          columns_unset (action out) (length (stopping_calls tr))
            num_actions_to_generate).
Proof.
  intros params recurrent_fn n stop temp Hrows.
  split; [|split; [|split]].
  - intros asf B g k t d pa. apply wrapper_stopped. simpl. reflexivity.
  - intros asf B g k t pa s. apply wrapper_stopped. simpl.
    apply orb_true_r.
  - intros asf B lower upper st Hst. apply stopped_loop. assumption.
  - intros rng_key root max_depth qt df da c1 c2 ed K.
    destruct (@muzero_policy_for_action_sequence_eq params rng_key root
                recurrent_fn n stop max_depth qt df da c1 c2 temp ed K Hrows)
      as (r & tree' & pa' & tr & Heq & Hr & _ & _ & _ & Hc & Hlen & Hcols).
    eexists _, _. split; [exact Heq|].
    cbn [action action_weights stopping_calls flat_map app].
    fold (stopping_calls tr). rewrite Hc.
    repeat split; assumption.
Qed.
(** ** Claims on the logit helpers *)

(** C9 (amended). For arrays of floats with at least one batch element and
    one action, when the Dirichlet samples of the concentration are finite
    (as they are for a finite positive [dirichlet_alpha]), the noise mixing
    with [dirichlet_fraction = 0] is the identity: [_add_dirichlet_noise]
    returns [probs] for every key, so the root prior logits of the standard
    policy are the masked logits of the softmax of the input prior logits,
    the same for every Dirichlet key. *)
Theorem dirichlet_fraction_zero_is_identity :
  forall rng_key rng_key' probs root invalid_actions dirichlet_alpha,
    (forall key shape b a,
        finite_float (random_dirichlet key dirichlet_alpha shape b a)) ->
    probs <> [] ->
    nonempty_rows probs ->
    Forall (Forall is_float) probs ->
    softmax (prior_logits root) <> [] ->
    nonempty_rows (softmax (prior_logits root)) ->
    Forall (Forall is_float) (softmax (prior_logits root)) ->
    _add_dirichlet_noise rng_key probs dirichlet_alpha 0 = probs /\
    root_with_dirichlet_noise rng_key root invalid_actions 0 dirichlet_alpha =
      (masked <- _mask_invalid_actions
                   (_get_logits_from_probs (softmax (prior_logits root)))
                   invalid_actions ;;
       ok (replace_prior_logits root masked)) /\
    root_with_dirichlet_noise rng_key root invalid_actions 0 dirichlet_alpha =
    root_with_dirichlet_noise rng_key' root invalid_actions 0 dirichlet_alpha.
Proof.
  intros rng_key rng_key' probs root invalid_actions alpha Hnoise _ _ Hprobs
         _ _ Hsoft.
  assert (Hid : forall key probs,
             Forall (Forall is_float) probs ->
             _add_dirichlet_noise key probs alpha 0 = probs).
  { intros key ps Hps. unfold _add_dirichlet_noise, imap.
    apply imap_from_id_Forall with (P := Forall is_float); [|exact Hps].
    intros b row Hrow.
    apply imap_from_id_Forall with (P := is_float); [|exact Hrow].
    intros a p Hp.
    destruct (Hnoise key (shape2 ps) b a) as (x & -> & Hx).
    apply fadd_fscale_zero; assumption. }
  split; [apply Hid; assumption|].
  unfold root_with_dirichlet_noise. rewrite !Hid by assumption.
  split; reflexivity.
Qed.

(** C8 (amended). For finite logits in a batch of at least one row, with at
    least one action per row and no logit further below the maximum of its
    row than the largest finite value, and a mask of the same shape (one that
    marks every action invalid included), [_mask_invalid_actions] returns an
    array of finite values only, of the shape of the mask, with the finite
    minimum of the dtype at every invalid action; and for probabilities
    without a NaN (all zeros included), [_get_logits_from_probs] returns
    neither NaN nor minus infinity. *)
Theorem logit_helpers_finite_on_finite_input :
  forall xs mask probs,
    xs <> [] ->
    nonempty_rows xs ->
    Forall within_spread xs ->
    same_shape (map (map Fin) xs) mask = true ->
    Forall (Forall (fun p => p <> NaN)) probs ->
    (exists out,
        _mask_invalid_actions (map (map Fin) xs) (Some mask) = ok out /\
        Forall (Forall is_finite) out /\
        length out = length mask /\
        forall b a mrow,
          nth_error mask b = Some mrow ->
          nth_error mrow a = Some true ->
          exists orow,
            nth_error out b = Some orow /\
            length orow = length mrow /\
            nth_error orow a = Some (Fin finfo_min)) /\
    Forall (Forall (fun l => l <> NaN /\ l <> NegInf))
           (_get_logits_from_probs probs).
Proof.
  intros xs mask probs Hbatch Hne Hspread Hshape Hprobs. split.
  - unfold _mask_invalid_actions. rewrite Hshape.
    rewrite mapM_sub_row_max_Fin by assumption. cbn [bind ok].
    set (shifted := map (fun row => map (fun x => (x - Rrow_max row)%R) row) xs).
    assert (Hsh : Forall2 (fun (mrow : list bool) (row : list R) =>
                             length mrow = length row) mask shifted).
    { clear Hbatch Hne Hspread. unfold shifted. revert mask Hshape.
      induction xs as [|row xs IH]; intros [|mrow mask] H; simpl in H;
        try discriminate; cbn [map]; constructor.
      - apply andb_prop in H. destruct H as [H _]. apply Nat.eqb_eq in H.
        rewrite !length_map in *. lia.
      - apply IH. apply andb_prop in H. apply H. }
    eexists. split; [reflexivity|]. split; [|split].
    + apply where_rows_finite; [exact I|].
      clear. induction shifted; simpl; constructor; auto. apply map_Fin_finite.
    + rewrite where_rows_length; rewrite length_map;
        apply Forall2_length in Hsh; lia.
    + intros b a mrow Hb Ha.
      destruct (Forall2_nth_error_l b Hsh Hb) as (row & Erow & Hlen).
      rewrite where_rows_nth_error, Hb, nth_error_map, Erow.
      cbn [option_map]. eexists. split; [reflexivity|]. split.
      * rewrite where_row_length; rewrite length_map; lia.
      * rewrite where_row_nth_error, Ha.
        destruct (nth_error (map Fin row) a) eqn:Er; [reflexivity|].
        apply nth_error_None in Er. rewrite length_map in Er.
        assert (a < length mrow)%nat by (apply nth_error_Some; congruence).
        lia.
  - unfold _get_logits_from_probs.
    apply Forall_forall. intros row Hin. apply in_map_iff in Hin.
    destruct Hin as [prow [<- Hin]].
    rewrite Forall_forall in Hprobs. specialize (Hprobs _ Hin).
    apply Forall_forall. intros l Hl. apply in_map_iff in Hl.
    destruct Hl as [p [<- Hp]]. rewrite Forall_forall in Hprobs.
    apply flog_fmaximum_tiny. apply Hprobs. assumption.
Qed.

(** ** Claim on the Gumbel policy *)


(** ** The final sampling at temperature zero *)

Lemma log_prob_monotone : forall p q, (p <= q)%R -> (log_prob p <= log_prob q)%R.
Proof.
  intros p q H. unfold log_prob.
  pose proof finfo_tiny_pos as Ht.
  assert (H1 : (Rmax p finfo_tiny <= Rmax q finfo_tiny)%R)
    by (apply Rle_max_compat_r; assumption).
  assert (H0 : (0 < Rmax p finfo_tiny)%R)
    by (eapply Rlt_le_trans; [exact Ht | apply Rmax_r]).
  destruct H1 as [H1 | H1].
  - left. apply ln_increasing; assumption.
  - rewrite H1. right. reflexivity.
Qed.

Lemma Rmax_monotone_fun : forall (f : R -> R) a b,
  (forall p q, (p <= q)%R -> (f p <= f q)%R) ->
  Rmax (f a) (f b) = f (Rmax a b).
Proof.
  intros f a b Hf. unfold Rmax at 2. destruct (Rle_dec a b) as [H | H].
  - apply Rmax_right, Hf. assumption.
  - apply Rmax_left, Hf. lra.
Qed.

Lemma fold_Rmax_monotone_fun : forall (f : R -> R) xs x,
  (forall p q, (p <= q)%R -> (f p <= f q)%R) ->
  fold_left Rmax (map f xs) (f x) = f (fold_left Rmax xs x).
Proof.
  intros f xs. induction xs as [|y xs IH]; intros x Hf; cbn [fold_left map].
  - reflexivity.
  - rewrite Rmax_monotone_fun by assumption. apply IH. assumption.
Qed.

Lemma Rrow_max_log_prob : forall row,
  row <> [] -> Rrow_max (map log_prob row) = log_prob (Rrow_max row).
Proof.
  intros [|x r] H; [congruence|]. cbn [Rrow_max map].
  apply fold_Rmax_monotone_fun, log_prob_monotone.
Qed.

Lemma _get_logits_from_probs_Fin : forall ws,
  _get_logits_from_probs (map (map Fin) ws) =
  map (map Fin) (map (map log_prob) ws).
Proof.
  intros ws. unfold _get_logits_from_probs. rewrite !map_map.
  apply map_ext. intros row. rewrite !map_map. apply map_ext. intros w.
  apply flog_fmaximum_tiny_Fin.
Qed.

Lemma log_prob_exp : forall p, exp (log_prob p) = Rmax p finfo_tiny.
Proof.
  intros p. unfold log_prob. apply exp_ln.
  eapply Rlt_le_trans; [exact finfo_tiny_pos | apply Rmax_r].
Qed.

Lemma log_prob_lower_bound : forall p, (ln finfo_tiny <= log_prob p)%R.
Proof.
  intros p. unfold log_prob.
  pose proof finfo_tiny_pos as Ht.
  destruct (Rmax_r p finfo_tiny) as [H | H].
  - left. apply ln_increasing; assumption.
  - rewrite <- H. right. reflexivity.
Qed.

Lemma ln_le_minus_1 : forall x, (0 < x)%R -> (ln x <= x - 1)%R.
Proof.
  intros x Hx. pose proof (exp_ineq1_le (ln x)) as H.
  rewrite exp_ln in H by exact Hx. lra.
Qed.

Lemma ln_tiny_bound : (- finfo_max <= ln finfo_tiny)%R.
Proof.
  unfold finfo_tiny. rewrite ln_Rinv by apply pow2_pos.
  pose proof (ln_le_minus_1 (pow2_pos 126)) as H.
  pose proof finfo_max_ge as Hmax.
  assert (H127 : (2 ^ 127 = 2 * 2 ^ 126)%R) by reflexivity.
  pose proof (pow2_pos 126). lra.
Qed.

Lemma log_prob_nonpos : forall p, (p <= 1)%R -> (log_prob p <= 0)%R.
Proof.
  intros p Hp. unfold log_prob. rewrite <- ln_1.
  pose proof finfo_tiny_pos as Ht. pose proof finfo_tiny_le_1 as Ht1.
  assert (H : (Rmax p finfo_tiny <= 1)%R) by (apply Rmax_lub; assumption).
  destruct H as [H | H].
  - left. apply ln_increasing; [|exact H].
    eapply Rlt_le_trans; [exact Ht | apply Rmax_r].
  - rewrite H. right. reflexivity.
Qed.

(** The logits of probabilities of at most 1 can be shifted by their row
    maximum without overflow. *)
Lemma log_prob_within_spread : forall row,
  (forall p, In p row -> (p <= 1)%R) -> within_spread (map log_prob row).
Proof.
  intros row Hrow x Hx. apply in_map_iff in Hx. destruct Hx as (p & <- & Hp).
  assert (Hne : row <> []) by (intros ->; contradiction).
  rewrite Rrow_max_log_prob by exact Hne.
  pose proof (log_prob_nonpos (Hrow _ (Rrow_max_In Hne))).
  pose proof (log_prob_lower_bound p). pose proof ln_tiny_bound. lra.
Qed.

Lemma imap_from_ext_in : forall (A B : Type) (f g : nat -> A -> B) l i,
  (forall k a, In a l -> f k a = g k a) -> imap_from i f l = imap_from i g l.
Proof.
  intros A B f g l. induction l as [|a l IH]; intros i H; simpl.
  - reflexivity.
  - rewrite (H i a (or_introl eq_refl)), (IH (S i)); [reflexivity|].
    intros k b Hb. apply H. right. exact Hb.
Qed.





(** ** Claim on the standard policy *)



(** * Further properties *)

(** ** The sampled action is an index of its row *)

Lemma argmax_from_range : forall l i besti best,
  (besti < i)%nat -> (argmax_from i besti best l < i + length l)%nat.
Proof.
  induction l as [|x l IH]; intros i besti best H; cbn [argmax_from length].
  - lia.
  - destruct (better x best).
    + specialize (IH (S i) i x). lia.
    + specialize (IH (S i) besti best). lia.
Qed.

Lemma argmax_range : forall row a,
  argmax row = ok a -> 0 <= a < Z.of_nat (length row).
Proof.
  intros [|x r] a H; [discriminate|]. injection H as <-.
  pose proof (@argmax_from_range r 1%nat 0%nat x). simpl length. lia.
Qed.

Lemma Forall2_imap_from : forall (A B : Type) (f : nat -> A -> B)
  (P : A -> B -> Prop) (l : list A) i,
  (forall k a, P a (f k a)) -> Forall2 P l (imap_from i f l).
Proof.
  intros A B f P l. induction l as [|a l IH]; intros i H; simpl;
    constructor; auto.
Qed.

Lemma Forall2_trans_length : forall (A B C : Type) (P : A -> B -> Prop)
  (Q : B -> C -> Prop) (R : A -> C -> Prop) l1 l2 l3,
  (forall a b c, P a b -> Q b c -> R a c) ->
  Forall2 P l1 l2 -> Forall2 Q l2 l3 -> Forall2 R l1 l3.
Proof.
  intros A B C P Q R l1 l2 l3 H H1. revert l3.
  induction H1 as [|a b l1 l2 Hab _ IH]; intros l3 H2; inversion H2; subst;
    constructor; eauto.
Qed.

Lemma Forall2_map_r : forall (A B C : Type) (P : A -> C -> Prop) (f : B -> C)
  (l : list A) (l' : list B),
  Forall2 (fun a b => P a (f b)) l l' -> Forall2 P l (map f l').
Proof.
  intros A B C P f l l' H. induction H; simpl; constructor; auto.
Qed.

Lemma Forall2_same : forall (A B : Type) (P : A -> B -> Prop) (f : A -> B)
  (l : list A),
  (forall a, P a (f a)) -> Forall2 P l (map f l).
Proof.
  intros A B P f l H. induction l; simpl; constructor; auto.
Qed.

Lemma _apply_temperature_shape : forall logits temperature out,
  _apply_temperature logits temperature = ok out ->
  same_row_lengths logits out.
Proof.
  intros logits t out H. unfold _apply_temperature in H.
  destruct (mapM sub_row_max logits) as [e|shifted] eqn:E; [discriminate|].
  cbn [bind ok] in H. injection H as <-.
  apply mapM_inv in E. apply Forall2_map_r.
  eapply Forall2_impl; [|exact E].
  intros r s Hs. rewrite length_map. apply sub_row_max_length. assumption.
Qed.

Lemma categorical_range : forall rng_key logits actions,
  categorical rng_key logits = ok actions ->
  Forall2 (fun row a => 0 <= a < Z.of_nat (length row)) logits actions.
Proof.
  intros rng_key logits actions H. unfold categorical in H.
  apply mapM_inv in H.
  eapply Forall2_trans_length; [| |exact H].
  2:{ unfold imap. apply Forall2_imap_from with
        (P := fun (r s : list float) => length s = length r).
      intros k row. apply imap_from_length. }
  intros row row' a Hlen Ha. cbv beta in Hlen. apply argmax_range in Ha. lia.
Qed.

Lemma _get_logits_from_probs_shape : forall probs,
  same_row_lengths probs (_get_logits_from_probs probs).
Proof.
  intros probs. unfold same_row_lengths, _get_logits_from_probs.
  apply Forall2_same. intros row. apply length_map.
Qed.

Lemma sampled_actions_are_row_indices_aux :
  forall rng_key action_weights temperature,
    nonempty_rows action_weights ->
    exists actions,
      sample_action rng_key action_weights temperature = ok actions /\
      Forall2 (fun row a => 0 <= a < Z.of_nat (length row))
              action_weights actions.
Proof.
  intros rng_key w t Hne.
  destruct (sample_action_ok rng_key t Hne) as [actions [Heq _]].
  exists actions. split; [assumption|].
  unfold sample_action in Heq.
  destruct (_apply_temperature (_get_logits_from_probs w) t)
    as [e|logits] eqn:E; [discriminate|].
  cbn [bind ok] in Heq.
  apply _apply_temperature_shape in E. apply categorical_range in Heq.
  pose proof (_get_logits_from_probs_shape w) as S.
  eapply Forall2_trans_length; [| |exact Heq].
  2:{ eapply Forall2_trans_length; [|exact S|exact E].
      intros a b c H1 H2. cbv beta in *.
      exact (eq_trans H2 H1). }
  intros row row' a Hlen Ha. cbv beta in *. lia.
Qed.

(** X1. For visit probabilities with at least one action in every row, the
    final sampling returns one action per row, and each action is an index of
    its row: at least 0 and below the number of actions, whatever the
    probabilities (NaN included), the temperature and the key are. *)
Theorem sampled_actions_are_row_indices :
  forall rng_key action_weights temperature,
    nonempty_rows action_weights ->
    exists actions,
      sample_action rng_key action_weights temperature = ok actions /\
      Forall2 (fun row a => 0 <= a < Z.of_nat (length row))
              action_weights actions.
Proof.
  intros rng_key w t Hne. apply sampled_actions_are_row_indices_aux.
  assumption.
Qed.

(** X3. Whenever the root priors can be prepared and the tree's summary has
    at least one action in every row, the standard policy returns: its action
    weights are the visit probabilities of the tree it returns, and it gives
    one action per row of them, each an index of that row. *)
Theorem muzero_policy_returns_row_indices :
  forall params rng_key root recurrent_fn num_simulations invalid_actions
         max_depth qtransform dirichlet_fraction dirichlet_alpha pb_c_init
         pb_c_base temperature noisy_root,
    root_with_dirichlet_noise (random_split rng_key 3 1) root invalid_actions
      dirichlet_fraction dirichlet_alpha = ok noisy_root ->
    (forall t, nonempty_rows (visit_probs (summary t))) ->
    exists out,
      muzero_policy params rng_key root recurrent_fn num_simulations
        invalid_actions max_depth qtransform dirichlet_fraction
        dirichlet_alpha pb_c_init pb_c_base temperature = ok out /\
      action_weights out = visit_probs (summary (search_tree out)) /\
      Forall2 (fun row a => 0 <= a < Z.of_nat (length row))
              (action_weights out) (action out).
Proof.
  intros params rng_key root recurrent_fn n inv md qt df da c1 c2 t noisy_root
         Hroot Hrows.
  unfold muzero_policy. rewrite Hroot. cbn [bind ok]. cbv zeta.
  match goal with
  | |- context [sample_action ?k (visit_probs (summary ?tree)) t] =>
      destruct (@sampled_actions_are_row_indices_aux k
                  (visit_probs (summary tree)) t (Hrows tree))
        as [actions [Heq Hrange]]
  end.
  rewrite Heq. cbn [bind ok]. eexists. split; [reflexivity|].
  cbn [action action_weights search_tree]. split; [reflexivity | assumption].
Qed.

(** ** Masking: errors, shapes and values *)

Lemma same_shape_row_lengths : forall (A B : Type) (x : list (list A))
  (y : list (list B)),
  same_shape x y = true <-> same_row_lengths y x.
Proof.
  intros A B x. unfold same_row_lengths.
  induction x as [|r x IH]; intros [|s y]; simpl; split; intros H.
  - constructor.
  - reflexivity.
  - discriminate.
  - inversion H.
  - discriminate.
  - inversion H.
  - apply andb_prop in H. destruct H as [H1 H2]. apply Nat.eqb_eq in H1.
    apply Forall2_cons; [exact H1 | apply IH; assumption].
  - inversion H as [|? ? ? ? H1 H2]; subst. apply andb_true_intro. split.
    + apply Nat.eqb_eq. exact H1.
    + apply IH. assumption.
Qed.

Lemma _mask_invalid_actions_Fin : forall xs mask,
  nonempty_rows xs -> Forall within_spread xs ->
  same_shape (map (map Fin) xs) mask = true ->
  _mask_invalid_actions (map (map Fin) xs) (Some mask) =
  ok (where_rows mask (Fin finfo_min)
        (map (map Fin)
             (map (fun row => map (fun x => x - Rrow_max row)%R row) xs))).
Proof.
  intros xs mask Hne Hs Hshape. unfold _mask_invalid_actions.
  rewrite Hshape, mapM_sub_row_max_Fin by assumption. reflexivity.
Qed.

(** X6. For finite logits with at least one action in every row, each
    within [finfo.max] of the maximum of its row (so that subtracting the
    maximum does not overflow), a valid action gets its logit minus the
    maximum of its row, the maximum being taken over all actions of the
    row, the invalid ones included: the value is at most 0, and it is 0
    exactly when the action has the largest logit of the row. *)
Theorem _mask_invalid_actions_valid_entries :
  forall xs mask b a row mrow,
    nonempty_rows xs ->
    Forall within_spread xs ->
    same_shape (map (map Fin) xs) mask = true ->
    nth_error xs b = Some row ->
    nth_error mask b = Some mrow ->
    nth_error mrow a = Some false ->
    exists out orow,
      _mask_invalid_actions (map (map Fin) xs) (Some mask) = ok out /\
      nth_error out b = Some orow /\
      nth_error orow a = Some (Fin (nth a row 0 - Rrow_max row)%R) /\
      (nth a row 0 - Rrow_max row <= 0)%R /\
      ((nth a row 0 - Rrow_max row = 0)%R <->
       forall x, In x row -> (x <= nth a row 0)%R).
Proof.
  intros xs mask b a row mrow Hne Hspread Hshape Hrow Hmrow Ha.
  rewrite _mask_invalid_actions_Fin by assumption.
  assert (Hlen : length mrow = length row).
  { apply same_shape_row_lengths in Hshape.
    destruct (Forall2_nth_error_l b Hshape Hmrow) as (r' & Hr' & Hl).
    rewrite nth_error_map, Hrow in Hr'. injection Hr' as <-.
    rewrite length_map in Hl. lia. }
  assert (HaL : (a < length row)%nat).
  { rewrite <- Hlen. apply nth_error_Some. congruence. }
  assert (Hin : In (nth a row 0%R) row) by (apply nth_In; assumption).
  eexists _, _. split; [reflexivity|]. split.
  { rewrite where_rows_nth_error, Hmrow, !nth_error_map, Hrow. reflexivity. }
  split.
  { rewrite where_row_nth_error, Ha, !nth_error_map.
    rewrite (nth_error_nth' row 0%R) by assumption. reflexivity. }
  pose proof (Rrow_max_ge row _ Hin) as Hle.
  split; [lra|]. split.
  - intros E x Hx. pose proof (Rrow_max_ge row x Hx). lra.
  - intros Hmax.
    assert (Hrow_ne : row <> []) by (intros ->; simpl in HaL; lia).
    pose proof (Hmax _ (Rrow_max_In Hrow_ne)). lra.
Qed.

(** ** Logits from probabilities *)

(** X7. For finite probabilities, [_get_logits_from_probs] returns finite
    logits [l] with [exp l = max(p, tiny)]: a probability of at least [tiny]
    is recovered from its logit, every smaller one (zero and negative values
    included) gets the logit of [tiny], which is the least logit returned,
    and a larger probability never gets a smaller logit. *)
Theorem _get_logits_from_probs_round_trip :
  forall ps,
    _get_logits_from_probs (map (map Fin) ps) =
      map (map Fin) (map (map log_prob) ps) /\
    (forall p, exp (log_prob p) = Rmax p finfo_tiny) /\
    (forall p, (finfo_tiny <= p)%R -> exp (log_prob p) = p) /\
    (forall p, (p <= finfo_tiny)%R -> log_prob p = ln finfo_tiny) /\
    (forall p, (ln finfo_tiny <= log_prob p)%R) /\
    (forall p q, (p <= q)%R -> (log_prob p <= log_prob q)%R).
Proof.
  intros ps. split; [apply _get_logits_from_probs_Fin|].
  split; [exact log_prob_exp|]. split.
  { intros p Hp. rewrite log_prob_exp. apply Rmax_left. assumption. }
  split.
  { intros p Hp. unfold log_prob. rewrite Rmax_right by assumption.
    reflexivity. }
  split; [exact log_prob_lower_bound | exact log_prob_monotone].
Qed.

(** ** Temperature *)




(** ** Dirichlet noise at the root *)

Lemma mixture_unit : forall f p n,
  (0 <= f <= 1)%R -> (0 <= p <= 1)%R -> (0 <= n <= 1)%R ->
  (0 <= (1 - f) * p + f * n <= 1)%R.
Proof. intros f p n Hf Hp Hn. nra. Qed.

Lemma representable_unit : forall x, (0 <= x <= 1)%R -> representable x.
Proof.
  intros x Hx. unfold representable. rewrite finfo_min_max.
  pose proof finfo_max_large. lra.
Qed.

Lemma _add_dirichlet_noise_Fin : forall rng_key ps dirichlet_alpha
  dirichlet_fraction (noise : nat -> nat -> R),
  (0 <= dirichlet_fraction <= 1)%R ->
  (forall row p, In row ps -> In p row -> (0 <= p <= 1)%R) ->
  (forall b a, random_dirichlet rng_key dirichlet_alpha (shape2 ps) b a =
               Fin (noise b a)) ->
  (forall b a, (0 <= noise b a <= 1)%R) ->
  _add_dirichlet_noise rng_key (map (map Fin) ps) dirichlet_alpha
    dirichlet_fraction =
  map (map Fin)
      (imap (fun b row =>
               imap (fun a p =>
                       ((1 - dirichlet_fraction) * p +
                        dirichlet_fraction * noise b a)%R)
                    row)
            ps).
Proof.
  intros key ps alpha f noise Hf Hp Hnoise Hn. unfold _add_dirichlet_noise.
  rewrite shape2_map by (intros row; apply length_map).
  unfold imap. rewrite imap_from_map, <- imap_from_map_out.
  apply imap_from_ext_in. intros b row Hrow.
  rewrite imap_from_map, <- imap_from_map_out.
  apply imap_from_ext_in. intros a p Hin.
  rewrite Hnoise. cbn [fscale].
  pose proof (Hp row p Hrow Hin) as Hp1. pose proof (Hn b a) as Hn1.
  rewrite !fround_exact by (apply representable_unit; nra).
  apply fadd_Fin. apply representable_unit. apply mixture_unit; assumption.
Qed.

(** ** The root given to the search *)

Lemma same_shape_congr_l : forall (A A' B : Type) (x : list (list A))
  (x' : list (list A')) (y : list (list B)),
  same_row_lengths x x' -> same_shape x' y = same_shape x y.
Proof.
  intros A A' B x x' y H. revert y. unfold same_row_lengths in H.
  induction H as [|r r' x x' Hlen _ IH]; intros [|s y]; simpl; try reflexivity.
  rewrite Hlen, IH. reflexivity.
Qed.

Lemma same_row_lengths_map : forall (A B : Type) (f : list A -> list B) x,
  (forall row, length (f row) = length row) -> same_row_lengths x (map f x).
Proof.
  intros A B f x H. unfold same_row_lengths. apply Forall2_same. exact H.
Qed.

Lemma same_row_lengths_imap_from : forall (A B : Type)
  (f : nat -> list A -> list B) x i,
  (forall k row, length (f k row) = length row) ->
  same_row_lengths x (imap_from i f x).
Proof.
  intros A B f x i H. unfold same_row_lengths. revert i.
  induction x as [|r x IH]; intros i; simpl; constructor.
  - apply H.
  - apply IH.
Qed.

Lemma same_row_lengths_trans : forall (A B C : Type) (x : list (list A))
  (y : list (list B)) (z : list (list C)),
  same_row_lengths x y -> same_row_lengths y z -> same_row_lengths x z.
Proof.
  intros A B C x y z H. unfold same_row_lengths in *. revert z.
  induction H as [|r s x y Hlen _ IH]; intros z Hz; inversion Hz; subst.
  - constructor.
  - constructor; [congruence | apply IH; assumption].
Qed.

Lemma same_row_lengths_nonempty : forall (A B : Type) (x : list (list A))
  (y : list (list B)),
  same_row_lengths x y -> nonempty_rows x -> nonempty_rows y.
Proof.
  intros A B x y H. unfold same_row_lengths, nonempty_rows in *.
  induction H as [|r s x y Hlen _ IH]; intros Hx; inversion Hx; subst.
  - constructor.
  - constructor; [|apply IH; assumption].
    destruct s; [|discriminate]. destruct r; [contradiction|discriminate].
Qed.

Lemma map_map_Fin_finite : forall xs, Forall (Forall is_finite) (map (map Fin) xs).
Proof.
  intros xs. induction xs; simpl; constructor; auto. apply map_Fin_finite.
Qed.

Lemma where_rows_row_lengths : forall mask c x,
  same_shape x mask = true -> same_row_lengths x (where_rows mask c x).
Proof.
  intros mask c x. unfold same_row_lengths. revert mask.
  induction x as [|r x IH]; intros [|m mask] H; simpl in *;
    try discriminate; constructor.
  - apply andb_prop in H. destruct H as [H _]. apply Nat.eqb_eq in H.
    apply where_row_length. symmetry. exact H.
  - apply IH. apply andb_prop in H. apply H.
Qed.

(** X10. Assume at least one batch element and one action, a softmax of
    the root's prior logits that is finite with entries between 0 and 1, a
    Dirichlet sample that is finite with entries between 0 and 1 (as it is
    for a positive alpha), a fraction between 0 and 1, and a mask, if any,
    of the shape of the logits. Then the root that [muzero_policy] prepares
    for the search keeps the value and the embedding of the given root and
    has finite prior logits only, of the shape of the given ones: neither
    the flooring at [tiny] before the logarithm nor the masking lets a NaN
    or an infinity through. *)
Theorem root_with_dirichlet_noise_is_finite :
  forall dirichlet_rng_key root invalid_actions dirichlet_fraction
         dirichlet_alpha ps (noise : nat -> nat -> R),
    softmax (prior_logits root) = map (map Fin) ps ->
    ps <> [] ->
    nonempty_rows ps ->
    (forall row p, In row ps -> In p row -> (0 <= p <= 1)%R) ->
    (0 <= dirichlet_fraction <= 1)%R ->
    (forall b a,
       random_dirichlet dirichlet_rng_key dirichlet_alpha (shape2 ps) b a =
       Fin (noise b a)) ->
    (forall b a, (0 <= noise b a <= 1)%R) ->
    (forall mask, invalid_actions = Some mask -> same_shape ps mask = true) ->
    exists noisy_root,
      root_with_dirichlet_noise dirichlet_rng_key root invalid_actions
        dirichlet_fraction dirichlet_alpha = ok noisy_root /\
      value noisy_root = value root /\
      embedding noisy_root = embedding root /\
      Forall (Forall is_finite) (prior_logits noisy_root) /\
      same_row_lengths ps (prior_logits noisy_root).
Proof.
  intros key root inv f alpha ps noise Hsoft Hbatch Hne Hp Hf Hnoise Hn Hmask.
  unfold root_with_dirichlet_noise.
  rewrite Hsoft, (@_add_dirichlet_noise_Fin key ps alpha f noise Hf Hp Hnoise Hn),
    _get_logits_from_probs_Fin.
  set (mixed := imap _ ps).
  set (qs := map (map log_prob) mixed).
  assert (Hshape : same_row_lengths ps qs).
  { unfold qs, mixed. eapply same_row_lengths_trans.
    - unfold imap. apply same_row_lengths_imap_from.
      intros k row. apply imap_from_length.
    - apply same_row_lengths_map. intros row. apply length_map. }
  assert (HshapeF : same_row_lengths ps (map (map Fin) qs)).
  { eapply same_row_lengths_trans; [exact Hshape|].
    apply same_row_lengths_map. intros row. apply length_map. }
  assert (Hspread : Forall within_spread qs).
  { apply Forall_forall. intros lrow Hin. unfold qs in Hin.
    apply in_map_iff in Hin. destruct Hin as (mrow & <- & Hmrow).
    apply log_prob_within_spread. intros m Hm.
    unfold mixed in Hmrow. apply In_imap in Hmrow.
    destruct Hmrow as (b & row & Hrow & ->).
    apply In_imap in Hm. destruct Hm as (a & p & Hpa & ->).
    apply nth_error_In in Hrow. apply nth_error_In in Hpa.
    apply mixture_unit; [exact Hf | exact (Hp _ _ Hrow Hpa) | apply Hn]. }
  destruct inv as [mask|].
  - rewrite _mask_invalid_actions_Fin.
    + cbn [bind ok]. eexists. split; [reflexivity|].
      cbn [value embedding prior_logits replace_prior_logits].
      split; [reflexivity|]. split; [reflexivity|]. split.
      * apply where_rows_finite; [exact I | apply map_map_Fin_finite].
      * set (shifted := map (map Fin) (map _ qs)).
        assert (Hs : same_row_lengths ps shifted).
        { eapply same_row_lengths_trans; [exact Hshape|]. unfold shifted.
          eapply same_row_lengths_trans;
            apply same_row_lengths_map; intros row; apply length_map. }
        eapply same_row_lengths_trans; [exact Hs|].
        apply where_rows_row_lengths.
        rewrite (same_shape_congr_l mask Hs). apply Hmask. reflexivity.
    + eapply same_row_lengths_nonempty; eassumption.
    + exact Hspread.
    + rewrite (same_shape_congr_l mask HshapeF). apply Hmask. reflexivity.
  - cbn [_mask_invalid_actions bind ok]. eexists. split; [reflexivity|].
    cbn [value embedding prior_logits replace_prior_logits].
    split; [reflexivity|]. split; [reflexivity|]. split.
    + apply map_map_Fin_finite.
    + exact HshapeF.
Qed.

(** ** Invariants of the generation loop *)

Section GenerationRounds.

Variable params : Params.
Variable recurrent_fn : RecurrentFn.
Variable num_simulations : nat.
Variable stopping_criteria_fn : list Embedding -> bool.
Variable temperature : R.
Variable action_selection_fn : ActionSelectionFn.
Variable batch_size : nat.

(** The key of the loop state: no round replaces it. *)
Variable rng_key : PRNGKey.

(** A property of the round number, the countdown, the performed actions and
    the stop flag that every executed round preserves. *)
Variable Inv : nat -> Z -> list (list Z) -> bool -> Prop.
Variable K : nat.

Hypothesis summary_rows : forall t, nonempty_rows (visit_probs (summary t)).
Hypothesis Inv_round :
  forall g max_depth performed_actions tree action e,
    (g < K)%nat -> max_depth <> 0 ->
    Inv g max_depth performed_actions false ->
    sample_action rng_key (visit_probs (summary tree)) temperature = ok action ->
    Inv (S g) (max_depth - 1)
      (at_column_set performed_actions (Z.of_nat g) action)
      (stopping_criteria_fn e).

Lemma generation_loop_invariant : forall m i tree max_depth pa stop,
  (i + m <= K)%nat ->
  Inv i max_depth pa stop ->
  exists r tree' max_depth' pa' stop' tr,
    fori_loopM_from m i
      (generate_next_action_stopping_wrapper params recurrent_fn
         num_simulations stopping_criteria_fn temperature action_selection_fn
         batch_size)
      (rng_key, tree, max_depth, pa, stop) =
      (ok (rng_key, tree', max_depth', pa', stop'), tr) /\
    (r <= m)%nat /\
    Inv (i + r) max_depth' pa' stop' /\
    ((r < m)%nat -> stop' = true \/ max_depth' = 0) /\
    length (stopping_calls tr) = r /\
    map fst (simulations tr) =
      seq (i * num_simulations) (r * num_simulations) /\
    expansions tr = seq (i * num_simulations) (r * num_simulations) /\
    backwards tr = seq (i * num_simulations) (r * num_simulations).
Proof.
  induction m as [|m IH]; intros i tree max_depth pa stop Hi HInv.
  - exists O, tree, max_depth, pa, stop, []. cbn [fori_loopM_from].
    rewrite Nat.add_0_r. repeat split; try assumption; try reflexivity. lia.
  - destruct (stopped (rng_key, tree, max_depth, pa, stop)) eqn:Hst.
    + exists O, tree, max_depth, pa, stop, []. rewrite stopped_loop by exact Hst.
      rewrite Nat.add_0_r. repeat split; try assumption; try reflexivity.
      * lia.
      * intros _. unfold stopped in Hst. apply orb_prop in Hst.
        destruct Hst as [Hs | Hd]; [left; exact Hs|].
        right. apply Z.eqb_eq. exact Hd.
    + cbn [fori_loopM_from]. rewrite wrapper_running by exact Hst.
      destruct (generate_next_action_eq params recurrent_fn num_simulations
                  stopping_criteria_fn temperature action_selection_fn
                  batch_size i rng_key tree max_depth pa stop summary_rows)
        as (tree1 & action & tr0 & Ha & Heq & Hs & He & Hb & Hc).
      unfold stopped in Hst. apply orb_false_elim in Hst.
      destruct Hst as [Hfl Hd]. subst stop. apply Z.eqb_neq in Hd.
      pose proof (@Inv_round i max_depth pa tree1 action
                    (root_embedding batch_size
                       (update_root batch_size tree1 action))
                    ltac:(lia) Hd HInv Ha) as HInv'.
      rewrite Heq, bindM_ok. cbn [fst snd].
      destruct (IH (S i) (update_root batch_size tree1 action)
                   (max_depth - 1) (at_column_set pa (Z.of_nat i) action)
                   _ ltac:(lia) HInv')
        as (r & tree' & d' & pa' & stop' & tr & Heq' & Hr & HI & Hstop & Hc'
            & Hs' & He' & Hb').
      rewrite Heq'. cbn [fst snd].
      exists (S r), tree', d', pa', stop'. eexists. split; [reflexivity|].
      rewrite !simulations_app, !expansions_app, !backwards_app,
        !stopping_calls_app, !map_app, Hs, He, Hb, Hc, Hs', He', Hb'.
      cbn [simulations expansions backwards stopping_calls flat_map app map].
      rewrite !app_nil_r, map_map. cbn [fst]. rewrite map_id.
      replace (i + S r)%nat with (S i + r)%nat by lia.
      assert (Hseq : seq (i * num_simulations) (S r * num_simulations) =
                     seq (i * num_simulations) num_simulations ++
                     seq (S i * num_simulations) (r * num_simulations)).
      { replace (S r * num_simulations)%nat
          with (num_simulations + r * num_simulations)%nat by lia.
        rewrite seq_app. f_equal. f_equal. lia. }
      rewrite Hseq.
      repeat split; try assumption; try reflexivity.
      * lia.
      * intros Hlt. apply Hstop. lia.
      * simpl. rewrite Hc'. reflexivity.
Qed.

End GenerationRounds.

Lemma generation_invariant :
  forall (Inv : nat -> Z -> list (list Z) -> bool -> Prop)
         params rng_key root recurrent_fn num_simulations stopping_criteria_fn
         max_depth qtransform dirichlet_fraction dirichlet_alpha pb_c_init
         pb_c_base temperature extra_data num_actions_to_generate,
  (forall t, nonempty_rows (visit_probs (summary t))) ->
  (forall g max_depth performed_actions tree action e,
      (g < num_actions_to_generate)%nat -> max_depth <> 0 ->
      Inv g max_depth performed_actions false ->
      sample_action (random_split rng_key 3 0) (visit_probs (summary tree))
        temperature = ok action ->
      Inv (S g) (max_depth - 1)
        (at_column_set performed_actions (Z.of_nat g) action)
        (stopping_criteria_fn e)) ->
  Inv 0%nat
    (match max_depth with
     | None => Z.of_nat (num_simulations * num_actions_to_generate)
     | Some d => d
     end)
    (full (length (value root)) (full num_actions_to_generate (-1))) false ->
  exists r out max_depth' stop' tr,
    muzero_policy_for_action_sequence params rng_key root recurrent_fn
      num_simulations stopping_criteria_fn None max_depth qtransform
      dirichlet_fraction dirichlet_alpha pb_c_init pb_c_base temperature
      extra_data num_actions_to_generate =
    (ok out,
     EvInstantiateTree (num_actions_to_generate * num_simulations) :: tr) /\
    (r <= num_actions_to_generate)%nat /\
    Inv r max_depth' (action out) stop' /\
    ((r < num_actions_to_generate)%nat -> stop' = true \/ max_depth' = 0) /\
    length (stopping_calls tr) = r /\
    map fst (simulations tr) = seq 0 (r * num_simulations) /\
    expansions tr = seq 0 (r * num_simulations) /\
    backwards tr = seq 0 (r * num_simulations).
Proof.
  intros Inv params rng_key root recurrent_fn n stop max_depth qt df da c1 c2
         temp ed K Hrows Hround Hinit.
  unfold muzero_policy_for_action_sequence.
  destruct (root_with_dirichlet_noise_None (random_split rng_key 3 1) root df da)
    as [root' [Hroot Hval]].
  rewrite Hroot. unfold lift. rewrite bindM_ok. cbn [fst snd app].
  rewrite bindM_tell. cbn [fst snd].
  rewrite <- Hval in Hinit.
  match goal with
  | |- context [fori_loopM 0 K ?w (?k, ?t, ?d, ?pa, ?s)] =>
      destruct (@generation_loop_invariant params recurrent_fn n stop temp
                  (switching_action_selection_wrapper
                     (muzero_action_selection c2 c1 qt (Some 0))
                     (muzero_action_selection c2 c1 qt None))
                  (length (value root')) k Inv K Hrows Hround
                  K 0%nat t d pa s ltac:(lia) Hinit)
        as (r & tree' & d' & pa' & stop' & tr & Heq & Hr & HI & Hstop & Hc
            & Hs & He & Hb)
  end.
  unfold fori_loopM. rewrite Nat.sub_0_r, Heq, bindM_ok. cbn [fst snd ret].
  exists r. eexists. exists d', stop', tr. rewrite app_nil_r.
  split; [reflexivity|]. cbn [action].
  repeat split; assumption.
Qed.

(** ** The number of generated actions *)

(** X11. With [max_depth = d] for some [d >= 0], the multi-step policy
    executes at most [d] rounds, whatever the stopping criterion answers: the
    criterion is asked at most [min(num_actions_to_generate, d)] times, the
    simulate/expand/backward cycle runs [num_simulations] times per executed
    round, and the columns of the rounds that were not executed hold [-1].
    With [max_depth = 0] the call simulates, expands and backs up nothing,
    never asks the criterion, and returns an action array of [-1] only. *)
Theorem max_depth_caps_generated_actions :
  forall params rng_key root recurrent_fn num_simulations stopping_criteria_fn
         d qtransform dirichlet_fraction dirichlet_alpha pb_c_init pb_c_base
         temperature extra_data num_actions_to_generate,
    (forall t, nonempty_rows (visit_probs (summary t))) ->
    0 <= d ->
    exists out tr,
      muzero_policy_for_action_sequence params rng_key root recurrent_fn
        num_simulations stopping_criteria_fn None (Some d) qtransform
        dirichlet_fraction dirichlet_alpha pb_c_init pb_c_base temperature
        extra_data num_actions_to_generate =
      (ok out,
       EvInstantiateTree (num_actions_to_generate * num_simulations) :: tr) /\
      (length (stopping_calls tr) <= num_actions_to_generate)%nat /\
      Z.of_nat (length (stopping_calls tr)) <= d /\
      map fst (simulations tr) =
        seq 0 (length (stopping_calls tr) * num_simulations) /\
      expansions tr =
        seq 0 (length (stopping_calls tr) * num_simulations) /\
      backwards tr =
        seq 0 (length (stopping_calls tr) * num_simulations) /\
      columns_unset (action out) (length (stopping_calls tr))
        num_actions_to_generate /\
      (d = 0 ->
       simulations tr = [] /\ expansions tr = [] /\ backwards tr = [] /\
       stopping_calls tr = [] /\
       action out =
         full (length (value root)) (full num_actions_to_generate (-1))).
Proof.
  intros params rng_key root recurrent_fn n stop d qt df da c1 c2 temp ed K
         Hrows Hd.
  destruct (@generation_invariant
              (fun g d' pa _ =>
                 d' = d - Z.of_nat g /\ Z.of_nat g <= d /\
                 columns_unset pa g K /\
                 (d = 0 -> pa = full (length (value root)) (full K (-1))))
              params rng_key root recurrent_fn n stop (Some d) qt df da c1 c2
              temp ed K Hrows)
    as (r & out & d' & stop' & tr & Heq & Hr & (Hd' & Hle & Hcols & Hz) & _
        & Hc & Hs & He & Hb).
  - intros g d0 pa tree action e Hg Hd0 (E & Hle & Hcols & _) _.
    split; [lia|]. split; [lia|]. split.
    + apply columns_unset_at_column_set. exact Hcols.
    + intros Hz. lia.
  - split; [lia|]. split; [lia|]. split; [apply columns_unset_full|].
    intros _. reflexivity.
  - exists out, tr. split; [exact Heq|]. rewrite Hc.
    split; [exact Hr|]. split; [exact Hle|]. split; [exact Hs|].
    split; [exact He|]. split; [exact Hb|]. split; [exact Hcols|].
    intros E.
    assert (Hr0 : r = 0%nat) by lia. rewrite Hr0 in *.
    cbn [Nat.mul seq] in Hs, He, Hb.
    split; [apply map_eq_nil in Hs; exact Hs|].
    split; [exact He|]. split; [exact Hb|].
    split; [apply length_zero_iff_nil; exact Hc|].
    apply Hz. exact E.
Qed.

(** X12. With a stopping criterion that never holds, the multi-step policy
    executes [rounds_until_depth num_actions_to_generate max_depth] rounds:
    all [num_actions_to_generate] of them when [max_depth] is negative or at
    least [num_actions_to_generate], and [max_depth] of them otherwise. With
    [max_depth] unset and at least one simulation per round, every action is
    generated; with [max_depth] unset and [num_simulations = 0], the countdown
    starts at 0 and no action is generated. *)
Theorem never_stopping_criterion_runs_until_depth :
  forall params rng_key root recurrent_fn num_simulations stopping_criteria_fn
         max_depth qtransform dirichlet_fraction dirichlet_alpha pb_c_init
         pb_c_base temperature extra_data num_actions_to_generate,
    (forall t, nonempty_rows (visit_probs (summary t))) ->
    (forall e, stopping_criteria_fn e = false) ->
    let rounds :=
      rounds_until_depth num_actions_to_generate
        (match max_depth with
         | None => Z.of_nat (num_simulations * num_actions_to_generate)
         | Some d => d
         end) in
    (exists out tr,
       muzero_policy_for_action_sequence params rng_key root recurrent_fn
         num_simulations stopping_criteria_fn None max_depth qtransform
         dirichlet_fraction dirichlet_alpha pb_c_init pb_c_base temperature
         extra_data num_actions_to_generate =
       (ok out,
        EvInstantiateTree (num_actions_to_generate * num_simulations) :: tr) /\
       length (stopping_calls tr) = rounds /\
       map fst (simulations tr) = seq 0 (rounds * num_simulations) /\
       expansions tr = seq 0 (rounds * num_simulations) /\
       backwards tr = seq 0 (rounds * num_simulations) /\
       columns_unset (action out) rounds num_actions_to_generate) /\
    (max_depth = None -> (1 <= num_simulations)%nat ->
     rounds = num_actions_to_generate) /\
    (max_depth = None -> num_simulations = 0%nat -> rounds = 0%nat).
Proof.
  intros params rng_key root recurrent_fn n stop max_depth qt df da c1 c2 temp
         ed K Hrows Hnever rounds.
  set (d := match max_depth with
            | None => Z.of_nat (n * K)
            | Some d => d
            end) in *.
  split; [|split].
  - destruct (@generation_invariant
                (fun g d' pa s =>
                   d' = d - Z.of_nat g /\ s = false /\
                   (0 <= d -> Z.of_nat g <= d) /\ columns_unset pa g K)
                params rng_key root recurrent_fn n stop max_depth qt df da c1
                c2 temp ed K Hrows)
      as (r & out & d' & stop' & tr & Heq & Hr & (Hd' & Hs' & Hle & Hcols)
          & Hstop & Hc & Hs & He & Hb).
    + intros g d0 pa tree action e Hg Hd0 (E & _ & Hle & Hcols) _.
      split; [lia|]. split; [apply Hnever|]. split; [lia|].
      apply columns_unset_at_column_set. exact Hcols.
    + fold d. split; [lia|]. split; [reflexivity|]. split; [lia|].
      apply columns_unset_full.
    + assert (Hrounds : r = rounds).
      { unfold rounds, rounds_until_depth.
        destruct (d <? 0) eqn:E.
        - apply Z.ltb_lt in E.
          destruct (Nat.eq_dec r K) as [|Hne]; [assumption|].
          destruct Hstop as [Hst | Hz]; [lia | congruence | lia].
        - apply Z.ltb_ge in E. specialize (Hle E).
          destruct (Nat.eq_dec r K) as [|Hne]; [lia|].
          destruct Hstop as [Hst | Hz]; [lia | congruence | lia]. }
      rewrite Hrounds in *.
      exists out, tr. repeat split; assumption.
  - intros E Hn. subst max_depth. unfold rounds, rounds_until_depth, d.
    destruct (_ <? 0) eqn:E; [reflexivity|]. nia.
  - intros E Hn. subst max_depth. unfold rounds, rounds_until_depth, d.
    subst n. cbn [Nat.mul Z.of_nat Z.ltb Z.compare Z.to_nat].
    apply Nat.min_0_r.
Qed.

(** ** The performed actions *)

Lemma at_set_nth_same : forall (A : Type) (x : list A) g v d,
  (g < length x)%nat -> nth g (at_set x (Z.of_nat g) v) d = v.
Proof.
  intros A x g v d H.
  assert (E : nth_error (at_set x (Z.of_nat g) v) g = Some v).
  { rewrite at_set_nth_error, written_index_of_nat.
    apply Nat.ltb_lt in H. rewrite H, Nat.eqb_refl. reflexivity. }
  rewrite <- nth_default_eq. unfold nth_default. rewrite E. reflexivity.
Qed.

Lemma at_column_set_Forall : forall (A : Type) (P Q : list A -> Prop)
  (R : A -> Prop) (x : list (list A)) g v,
  length v = length x ->
  Forall P x -> Forall R v ->
  (forall row a, P row -> R a -> Q (at_set row (Z.of_nat g) a)) ->
  Forall Q (at_column_set x (Z.of_nat g) v).
Proof.
  intros A P Q R x g v Hlen HP HR Hset. revert v Hlen HR.
  induction HP as [|row x Hrow _ IH]; intros v Hlen HR; simpl.
  - constructor.
  - destruct v as [|a v]; [discriminate|].
    inversion HR; subst. constructor; [apply Hset; assumption|].
    apply IH; [simpl in Hlen; lia | assumption].
Qed.

Lemma sampled_actions_below : forall (B A : nat) (w : list (list float)) actions,
  rect B A w ->
  Forall2 (fun row a => 0 <= a < Z.of_nat (length row)) w actions ->
  length actions = B /\ Forall (fun a => 0 <= a < Z.of_nat A) actions.
Proof.
  intros B A w actions [Hlen Hrows] H. split.
  - apply Forall2_length in H. lia.
  - clear Hlen. induction H as [|row a w actions Ha _ IH]; constructor.
    + inversion Hrows; subst. assumption.
    + apply IH. inversion Hrows; assumption.
Qed.

Lemma rect_nonempty_rows : forall (T : Type) B A (x : list (list T)),
  (0 < A)%nat -> rect B A x -> nonempty_rows x.
Proof.
  intros T B A x HA [_ H]. unfold nonempty_rows.
  eapply Forall_impl; [|exact H]. intros row Hrow E. subst row.
  simpl in Hrow. lia.
Qed.

(** X13. When the root summary of every tree is a [[B, A]] array with
    [B] the batch size of the root and [A > 0], the action array that the
    multi-step policy returns has [B] rows of [num_actions_to_generate]
    columns; in the columns of the executed rounds every entry is an action
    index, at least 0 and below [A], and in every later column every entry
    is [-1]: a [-1] marks exactly the rounds that were not executed. *)
Theorem performed_actions_are_indices_then_unset :
  forall params rng_key root recurrent_fn num_simulations stopping_criteria_fn
         max_depth qtransform dirichlet_fraction dirichlet_alpha pb_c_init
         pb_c_base temperature extra_data num_actions_to_generate A,
    (0 < A)%nat ->
    (forall t, rect (length (value root)) A (visit_probs (summary t))) ->
    exists out tr,
      muzero_policy_for_action_sequence params rng_key root recurrent_fn
        num_simulations stopping_criteria_fn None max_depth qtransform
        dirichlet_fraction dirichlet_alpha pb_c_init pb_c_base temperature
        extra_data num_actions_to_generate =
      (ok out,
       EvInstantiateTree (num_actions_to_generate * num_simulations) :: tr) /\
      (length (stopping_calls tr) <= num_actions_to_generate)%nat /\
      actions_until (length (value root)) num_actions_to_generate A
        (length (stopping_calls tr)) (action out).
Proof.
  intros params rng_key root recurrent_fn n stop max_depth qt df da c1 c2 temp
         ed K A HA Hrect.
  assert (Hrows : forall t, nonempty_rows (visit_probs (summary t))).
  { intros t. eapply rect_nonempty_rows; [exact HA | apply Hrect]. }
  destruct (@generation_invariant
              (fun g _ pa _ => actions_until (length (value root)) K A g pa)
              params rng_key root recurrent_fn n stop max_depth qt df da c1 c2
              temp ed K Hrows)
    as (r & out & d' & stop' & tr & Heq & Hr & HI & _ & Hc & _).
  - intros g d0 pa tree action e Hg _ [Hlen Hpa] Ha.
    destruct (@sampled_actions_are_row_indices_aux (random_split rng_key 3 0)
                (visit_probs (summary tree)) temp (Hrows tree))
      as [action' [Ha' Hrange]].
    rewrite Ha in Ha'. injection Ha' as <-.
    destruct (sampled_actions_below (Hrect tree) Hrange) as [Hla Hbelow].
    split; [rewrite at_column_set_length; exact Hlen|].
    eapply at_column_set_Forall; [lia | exact Hpa | exact Hbelow |].
    intros row a (Hrow & Hset & Hunset) Hrange_a. cbv beta.
    split; [rewrite at_set_length; exact Hrow|]. split.
    + intros j Hj. destruct (Nat.eq_dec j g) as [->|Hne].
      * rewrite at_set_nth_same by lia. exact Hrange_a.
      * rewrite at_set_nth_other by exact Hne. apply Hset. lia.
    + intros j Hj. rewrite at_set_nth_other by lia. apply Hunset. lia.
  - split; [apply repeat_length|]. unfold full. apply Forall_forall.
    intros row Hrow. apply repeat_spec in Hrow. subst row.
    split; [apply repeat_length|]. split; [intros j Hj; lia|].
    intros j Hj. apply nth_repeat_lt. lia.
  - exists out, tr. rewrite Hc. repeat split; try assumption; apply HI.
Qed.

(** ** The key of the final sampling *)

Lemma action_column_at_column_set_same : forall x g v,
  length v = length x ->
  Forall (fun row => (g < length row)%nat) x ->
  action_column g (at_column_set x (Z.of_nat g) v) = v.
Proof.
  intros x g v Hlen H. revert v Hlen. unfold action_column.
  induction H as [|row x Hrow _ IH]; intros [|a v] Hlen; simpl in *;
    try discriminate; try reflexivity.
  rewrite at_set_nth_same by exact Hrow. rewrite IH by lia. reflexivity.
Qed.

Lemma action_column_at_column_set_other : forall x g v j,
  j <> g ->
  action_column j (at_column_set x (Z.of_nat g) v) = action_column j x.
Proof.
  intros x g v j Hne. revert v. unfold action_column.
  induction x as [|row x IH]; intros v; simpl; [reflexivity|].
  destruct v as [|a v]; simpl; rewrite IH; [reflexivity|].
  rewrite at_set_nth_other by exact Hne. reflexivity.
Qed.

(** X14. The multi-step policy never advances its rng key between rounds:
    when the root summary of every tree is a [[B, A]] array ([B] the batch
    size, [A > 0]), the column of every executed round is the sample that
    [sample_action] draws, with the first of the three keys split from the
    caller's key, from the visit probabilities of some tree: every round
    samples with the same key, and so with the same noise. *)
Theorem every_round_samples_with_the_same_key :
  forall params rng_key root recurrent_fn num_simulations stopping_criteria_fn
         max_depth qtransform dirichlet_fraction dirichlet_alpha pb_c_init
         pb_c_base temperature extra_data num_actions_to_generate A,
    (0 < A)%nat ->
    (forall t, rect (length (value root)) A (visit_probs (summary t))) ->
    exists out tr,
      muzero_policy_for_action_sequence params rng_key root recurrent_fn
        num_simulations stopping_criteria_fn None max_depth qtransform
        dirichlet_fraction dirichlet_alpha pb_c_init pb_c_base temperature
        extra_data num_actions_to_generate =
      (ok out,
       EvInstantiateTree (num_actions_to_generate * num_simulations) :: tr) /\
      forall j, (j < length (stopping_calls tr))%nat ->
        exists tree,
          sample_action (random_split rng_key 3 0)
            (visit_probs (summary tree)) temperature =
          ok (action_column j (action out)).
Proof.
  intros params rng_key root recurrent_fn n stop max_depth qt df da c1 c2 temp
         ed K A HA Hrect.
  assert (Hrows : forall t, nonempty_rows (visit_probs (summary t))).
  { intros t. eapply rect_nonempty_rows; [exact HA | apply Hrect]. }
  destruct (@generation_invariant
              (fun g _ pa _ =>
                 length pa = length (value root) /\
                 Forall (fun row => length row = K) pa /\
                 forall j, (j < g)%nat ->
                   exists tree,
                     sample_action (random_split rng_key 3 0)
                       (visit_probs (summary tree)) temp =
                     ok (action_column j pa))
              params rng_key root recurrent_fn n stop max_depth qt df da c1 c2
              temp ed K Hrows)
    as (r & out & d' & stop' & tr & Heq & Hr & (_ & _ & HI) & _ & Hc & _).
  - intros g d0 pa tree action e Hg _ (Hlen & Hpa & Hcol) Ha.
    destruct (@sampled_actions_are_row_indices_aux (random_split rng_key 3 0)
                (visit_probs (summary tree)) temp (Hrows tree))
      as [action' [Ha' Hrange]].
    rewrite Ha in Ha'. injection Ha' as <-.
    destruct (sampled_actions_below (Hrect tree) Hrange) as [Hla _].
    split; [rewrite at_column_set_length; exact Hlen|]. split.
    + apply at_column_set_rows; [|exact Hpa].
      intros row a Hrow. rewrite at_set_length. exact Hrow.
    + intros j Hj. destruct (Nat.eq_dec j g) as [->|Hne].
      * exists tree. rewrite action_column_at_column_set_same; [exact Ha|lia|].
        eapply Forall_impl; [|exact Hpa]. intros row Hrow. cbv beta in *.
        lia.
      * rewrite action_column_at_column_set_other by exact Hne.
        apply Hcol. lia.
  - split; [apply repeat_length|]. split.
    + unfold full. apply Forall_forall. intros row Hrow.
      apply repeat_spec in Hrow. subst row. apply repeat_length.
    + intros j Hj. lia.
  - exists out, tr. split; [exact Heq|]. rewrite Hc. exact HI.
Qed.

(** ** The weights of the final sampling *)



(** ** A mask of another shape *)

Lemma _add_dirichlet_noise_shape : forall rng_key probs dirichlet_alpha
  dirichlet_fraction,
  same_row_lengths probs
    (_add_dirichlet_noise rng_key probs dirichlet_alpha dirichlet_fraction).
Proof.
  intros key probs alpha f. unfold _add_dirichlet_noise, imap.
  apply same_row_lengths_imap_from. intros k row. apply imap_from_length.
Qed.

(** X16. Both single-step policies reject an invalid-actions mask whose
    shape differs from the shape of the root's prior logits: for a root with
    at least one batch element and one action, whose softmax keeps the
    shape of its argument, [muzero_policy] and [gumbel_muzero_policy] raise
    [AssertionError], whatever the other arguments are. *)
Theorem mismatched_mask_raises_assertion_error :
  forall params rng_key root recurrent_fn num_simulations mask max_depth
         qtransform dirichlet_fraction dirichlet_alpha pb_c_init pb_c_base
         temperature max_num_considered_actions gumbel_scale,
    prior_logits root <> [] ->
    nonempty_rows (prior_logits root) ->
    same_shape (prior_logits root) mask = false ->
    same_row_lengths (prior_logits root) (softmax (prior_logits root)) ->
    muzero_policy params rng_key root recurrent_fn num_simulations (Some mask)
      max_depth qtransform dirichlet_fraction dirichlet_alpha pb_c_init
      pb_c_base temperature = raise AssertionError /\
    gumbel_muzero_policy params rng_key root recurrent_fn num_simulations
      (Some mask) max_depth qtransform max_num_considered_actions gumbel_scale
      = raise AssertionError.
Proof.
  intros params rng_key root recurrent_fn n mask max_depth qt df da c1 c2 temp
         m gs _ _ Hshape Hsoft.
  split.
  - unfold muzero_policy, root_with_dirichlet_noise, _mask_invalid_actions.
    set (noisy := _get_logits_from_probs _).
    assert (Hn : same_row_lengths (prior_logits root) noisy).
    { eapply same_row_lengths_trans; [exact Hsoft|].
      eapply same_row_lengths_trans; [apply _add_dirichlet_noise_shape|].
      apply _get_logits_from_probs_shape. }
    rewrite (same_shape_congr_l mask Hn), Hshape. reflexivity.
  - unfold gumbel_muzero_policy, _mask_invalid_actions.
    rewrite Hshape. reflexivity.
Qed.

(** ** Re-rooting on an unvisited action *)

Lemma update_root_root_index : forall batch_size tree action,
  length (root_index tree) = batch_size ->
  root_index (update_root batch_size tree action) =
  map (fun b =>
         children_index_at tree b (gather 0 (root_index tree) b)
           (gather 0 action b))
      (arange batch_size).
Proof.
  intros B tree action Hroot. unfold update_root.
  cbn [root_index replace_root_index_parents].
  unfold fori_loop, update_new_root_index. rewrite Nat.sub_0_r.
  rewrite (fold_at_set_seq
             (fun i => children_index_at tree (Z.of_nat i)
                         (gather 0 (root_index tree) (Z.of_nat i))
                         (gather 0 action (Z.of_nat i))))
    by (unfold full_like; rewrite repeat_length; lia).
  rewrite skipn_all2, app_nil_r
    by (unfold full_like; rewrite repeat_length; lia).
  rewrite at_all_set_same_length
    by (rewrite length_map, length_seq; lia).
  unfold arange. rewrite map_map. reflexivity.
Qed.

(** X17. Re-rooting on an action whose edge from the current root still
    holds [UNVISITED] in [children_index] makes [UNVISITED] the root index of
    that batch element. With [UNVISITED = -1], the root embedding computed
    from the re-rooted tree, which [generate_next_action] passes to the
    stopping criterion, holds for this batch element the embedding read at
    index [-1]: the one of the last node of the tree. *)
Theorem unvisited_action_makes_root_index_unvisited :
  forall batch_size tree action b p a nodes edges row,
    length (root_index tree) = batch_size ->
    length (embeddings tree) = batch_size ->
    Forall (fun r => r <> []) (embeddings tree) ->
    (b < batch_size)%nat ->
    nth_error (root_index tree) b = Some p ->
    nth_error action b = Some a ->
    0 <= p -> 0 <= a ->
    nth_error (children_index tree) b = Some nodes ->
    nth_error nodes (Z.to_nat p) = Some edges ->
    nth_error edges (Z.to_nat a) = Some UNVISITED ->
    UNVISITED = -1 ->
    nth_error (embeddings tree) b = Some row ->
    let tree' := update_root batch_size tree action in
    nth_error (root_index tree') b = Some (-1) /\
    exists e,
      nth_error row (length row - 1) = Some e /\
      nth_error (root_embedding batch_size tree') b = Some e.
Proof.
  intros B tree action b p a nodes edges row Hroot Hemb Hne Hb Hp Ha Hp0 Ha0
         Hnodes Hedges Hchild Hun Hrow tree'.
  assert (Hedge : children_index_at tree (Z.of_nat b)
                    (gather 0 (root_index tree) (Z.of_nat b))
                    (gather 0 action (Z.of_nat b)) = UNVISITED).
  { unfold children_index_at.
    rewrite (@gather_nth_error _ 0 (root_index tree) (Z.of_nat b) p)
      by (try lia; rewrite Nat2Z.id; exact Hp).
    rewrite (@gather_nth_error _ 0 action (Z.of_nat b) a)
      by (try lia; rewrite Nat2Z.id; exact Ha).
    rewrite (@gather_nth_error _ [] (children_index tree) (Z.of_nat b) nodes)
      by (try lia; rewrite Nat2Z.id; exact Hnodes).
    rewrite (@gather_nth_error _ [] nodes p edges) by assumption.
    apply gather_nth_error; assumption. }
  assert (Hidx : nth_error (root_index tree') b = Some (-1)).
  { unfold tree'. rewrite update_root_root_index by exact Hroot.
    unfold arange. rewrite map_map, nth_error_map.
    rewrite (nth_error_nth' (seq 0 B) 0%nat) by (rewrite length_seq; lia).
    rewrite seq_nth by lia. cbn [option_map Nat.add]. f_equal.
    rewrite Hedge. exact Hun. }
  split; [exact Hidx|].
  assert (Hrow_ne : row <> []).
  { rewrite Forall_forall in Hne. apply Hne. eapply nth_error_In. exact Hrow. }
  assert (Hlast : gather_opt row (-1) = nth_error row (length row - 1))
    by (apply gather_opt_minus_one; exact Hrow_ne).
  destruct (nth_error row (length row - 1)) as [e|] eqn:He.
  2:{ apply nth_error_None in He. destruct row; [congruence|].
      simpl in He. lia. }
  exists e. split; [reflexivity|].
  assert (HlenR : length (root_index tree') = B).
  { unfold tree'. rewrite update_root_root_index by exact Hroot.
    unfold arange. rewrite !length_map, length_seq. reflexivity. }
  eapply (@root_embedding_nth_error B tree' b row (-1) e); try assumption.
Qed.

End Policies.

(** * A small instance

    One environment with a single action: every simulation starts at the
    current root and takes action 0, [expand] stores the child on that edge,
    and the embedding of node [i] is [i]. *)

Module Instance.

Definition PRNGKey : Type := nat.
Definition Embedding : Type := Z.

Definition random_split (key : PRNGKey) (n i : nat) : PRNGKey := (key * n + i)%nat.
(** A uniform sample for a positive alpha, NaN otherwise. *)
Definition random_dirichlet (_ : PRNGKey) (alpha : R) (shape : nat * nat)
  (_ _ : nat) : float :=
  if Rltb 0 alpha then Fin (/ INR (snd shape)) else NaN.
Definition random_gumbel (key : PRNGKey) (_ : nat * nat) (_ a : nat) : R :=
  match key with
  | O => 0%R
  | S _ => INR (Nat.min a 1)
  end.
Definition softmax (x : list (list float)) : list (list float) := x.

Definition UNVISITED : Z := -1.
Definition NO_PARENT : Z := -1.

Definition muzero_action_selection (_ _ : R) (_ : unit) (_ : option Z) : unit :=
  tt.
Definition switching_action_selection_wrapper (_ _ : unit) : unit := tt.

Definition summary (_ : Tree Embedding unit) : SearchSummary :=
  {| visit_counts := [[1]]; visit_probs := [[Fin 1]] |}.

Definition instantiate_tree_from_root (root : RootFnOutput Embedding)
  (num_simulations : nat) (_ : list (list float)) (extra_data : unit)
  : Tree Embedding unit :=
  let num_nodes := S num_simulations in
  {| node_visits := [full num_nodes 0];
     raw_values := [];
     node_values := [];
     parents := [full num_nodes NO_PARENT];
     action_from_parent := [full num_nodes (-1)];
     children_index := [full num_nodes [UNVISITED]];
     children_prior_logits := [];
     children_visits := [];
     children_values := [];
     children_rewards := [];
     embeddings := [arange num_nodes];
     root_index := [0];
     extra_data := extra_data |}.

Definition simulate (_ : list PRNGKey) (tree : Tree Embedding unit) (_ : unit)
  (_ : Z) : list Z * list Z :=
  (root_index tree, [0]).

Definition expand (_ : unit) (_ : PRNGKey) (tree : Tree Embedding unit)
  (_ : unit) (parent_index action next_node_index : list Z)
  : Tree Embedding unit :=
  {| node_visits := node_visits tree;
     raw_values := raw_values tree;
     node_values := node_values tree;
     parents := batch_update (parents tree) parent_index next_node_index;
     action_from_parent :=
       batch_update (action_from_parent tree) action next_node_index;
     children_index :=
       [at_set (gather [] (children_index tree) 0)
               (gather 0 parent_index 0) next_node_index];
     children_prior_logits := children_prior_logits tree;
     children_visits := children_visits tree;
     children_values := children_values tree;
     children_rewards := children_rewards tree;
     embeddings := embeddings tree;
     root_index := root_index tree;
     extra_data := extra_data tree |}.

Definition backward (tree : Tree Embedding unit) (_ : list Z)
  : Tree Embedding unit := tree.

Definition root : RootFnOutput Embedding :=
  {| prior_logits := [[Fin 0]]; value := [Fin 0]; embedding := [0] |}.

(** The multi-step policy on this instance, for [num_simulations] simulations
    per action and [num_actions_to_generate] actions. *)
Definition run (stopping_criteria_fn : list Embedding -> bool)
  (invalid_actions : option (list (list bool))) (max_depth : option Z)
  (num_simulations num_actions_to_generate : nat)
  : M Embedding (PolicyOutput Embedding unit (list (list Z)) (list float)) :=
  muzero_policy_for_action_sequence random_split random_dirichlet
    random_gumbel softmax UNVISITED NO_PARENT muzero_action_selection
    switching_action_selection_wrapper summary instantiate_tree_from_root
    simulate expand backward tt 0%nat root tt num_simulations
    stopping_criteria_fn invalid_actions max_depth tt 0 1 1 1 1 tt
    num_actions_to_generate.

(** One iteration of the generation loop on this instance. *)
Definition iteration (stopping_criteria_fn : list Embedding -> bool)
  (num_simulations generated_action : nat)
  (loop_state : PRNGKey * Tree Embedding unit * Z * list (list Z) * bool)
  : M Embedding (PRNGKey * Tree Embedding unit * Z * list (list Z) * bool) :=
  generate_next_action_stopping_wrapper random_split random_gumbel UNVISITED
    NO_PARENT summary simulate expand backward tt tt num_simulations
    stopping_criteria_fn 1 tt 1 generated_action loop_state.

Definition never_stop (_ : list Embedding) : bool := false.

(** Stop once the root is the node of embedding 1. *)
Definition stop_at_node_1 (root_embedding : list Embedding) : bool :=
  match root_embedding with
  | [e] => e =? 1
  | _ => false
  end.

(** The standard policy on an instance with two actions whose root visit
    counts are equal. *)
Definition search (_ : unit) (_ : PRNGKey) (root : RootFnOutput Embedding)
  (_ : unit) (_ _ : unit) (num_simulations : nat) (_ : option Z)
  (_ : option (list (list bool))) (extra_data : unit) : Tree Embedding unit :=
  instantiate_tree_from_root root num_simulations [] extra_data.

Definition summary_tied (_ : Tree Embedding unit) : SearchSummary :=
  {| visit_counts := [[1; 1]];
     visit_probs := [[Fin (1 / 2); Fin (1 / 2)]] |}.

Definition root_two_actions : RootFnOutput Embedding :=
  {| prior_logits := [[Fin 0; Fin 0]]; value := [Fin 0]; embedding := [0] |}.

Definition standard (rng_key : PRNGKey) (temperature : R)
  : result (PolicyOutput Embedding unit (list Z) (list (list float))) :=
  muzero_policy random_split random_dirichlet random_gumbel softmax
    muzero_action_selection summary_tied tt search tt rng_key
    root_two_actions tt 2 None None tt 0 1 1 1 temperature.



(** The Gumbel policy on an instance with three actions: the root visit
    counts are [3, 5, 5], the completed Q-values are 0. *)
Definition summary_gumbel (_ : Tree Embedding unit) : SearchSummary :=
  {| visit_counts := [[3; 5; 5]];
     visit_probs := [[Fin (3 / 13); Fin (5 / 13); Fin (5 / 13)]] |}.

Definition completed_qvalues (_ : unit) (_ : Tree Embedding unit) (_ : Z)
  : list (list float) :=
  map (map Fin) [[0%R; 0%R; 0%R]].

Definition root_three_actions : RootFnOutput Embedding :=
  {| prior_logits := map (map Fin) [[9%R; 0%R; 1%R]];
     value := [Fin 0];
     embedding := [0] |}.

Definition gumbel (rng_key : PRNGKey)
  (invalid_actions : option (list (list bool))) (gumbel_scale : R)
  : result (PolicyOutput Embedding unit (list Z) (list (list float))) :=
  gumbel_muzero_policy random_split random_gumbel softmax 0
    (fun _ _ _ => tt) (fun _ => tt) summary_gumbel completed_qvalues
    (fun _ => tt) search tt rng_key root_three_actions tt 2 invalid_actions
    None tt 2 gumbel_scale.

End Instance.
(** ** Runs of the instance *)

Example run_events :
  snd (Instance.run Instance.never_stop None None 2 2) =
  [EvInstantiateTree Z 4;
   EvSimulate Z 0 4; EvExpand Z 0 [1]; EvBackward Z 0 [1];
   EvSimulate Z 1 4; EvExpand Z 1 [1]; EvBackward Z 1 [1];
   EvStoppingCriteria [1];
   EvSimulate Z 2 3; EvExpand Z 2 [3]; EvBackward Z 2 [3];
   EvSimulate Z 3 3; EvExpand Z 3 [3]; EvBackward Z 3 [3];
   EvStoppingCriteria [3]].
Proof. lazy. reflexivity. Qed.

Example run_stops_after_first_round :
  exists out,
    fst (Instance.run Instance.stop_at_node_1 None None 2 3) = ok out /\
    action out = [[0; -1; -1]] /\
    action_weights out = [] /\
    root_index (search_tree out) = [1].
Proof. eexists. lazy. repeat split. Qed.

Example run_stops_at_max_depth_zero :
  exists out,
    fst (Instance.run Instance.never_stop None (Some 1) 2 3) = ok out /\
    action out = [[0; -1; -1]].
Proof. eexists. lazy. repeat split. Qed.

Lemma instance_summary_rows :
  forall t, nonempty_rows (visit_probs (Instance.summary t)).
Proof. intros t. repeat constructor. discriminate. Qed.

(** ** Witnesses and counterexamples *)

(** C4, at the instance: two simulations per action, three actions. In the
    first iteration from the initial tree the two simulations expand and
    revisit node 1, action 0 is sampled, the root moves to node 1 and the
    criterion is asked once, about the embedding of node 1; the whole call
    runs three such rounds. *)
Lemma executed_round_runs_num_simulations_witness :
  (forall t, nonempty_rows (visit_probs (Instance.summary t))) /\
  let tree := Instance.instantiate_tree_from_root Instance.root 6 [] tt in
  let searched :=
    simulated Instance.random_split Instance.UNVISITED Instance.simulate
      Instance.expand Instance.backward tt tt tt 1 2 (0 * 2) 0%nat tree 6 in
  let new_tree := update_root Instance.NO_PARENT 1 searched [0] in
  stopped (0%nat, tree, 6, [[-1; -1; -1]], false) = false /\
  sample_action Instance.random_gumbel 0%nat
    (visit_probs (Instance.summary searched)) 1 = ok [0] /\
  root_index new_tree = [1] /\
  embeddings new_tree = [[0; 1; 2; 3; 4; 5; 6]] /\
  root_embedding 1 new_tree = [1] /\
  (exists tr,
      Instance.iteration Instance.never_stop 2 0
        (0%nat, tree, 6, [[-1; -1; -1]], false) =
      (ok (0%nat, new_tree, 6 - 1, [[0; -1; -1]], false),
       tr ++ [EvStoppingCriteria [1]]) /\
      map fst (simulations tr) = [0; 1]%nat /\
      expansions tr = [0; 1]%nat /\
      backwards tr = [0; 1]%nat /\
      stopping_calls tr = []) /\
  exists out tr,
    Instance.run Instance.never_stop None None 2 3 =
      (ok out, EvInstantiateTree Z (3 * 2) :: tr) /\
    map fst (simulations tr) = seq 0 (3 * 2) /\
    expansions tr = seq 0 (3 * 2) /\
    backwards tr = seq 0 (3 * 2) /\
    stopping_calls tr = [[1]; [3]; [5]].
Proof.
  split; [exact instance_summary_rows|].
  intros tree searched new_tree.
  destruct (@executed_round_runs_num_simulations unit Instance.Embedding unit unit
              unit Instance.PRNGKey
              Instance.random_split Instance.random_dirichlet
              Instance.random_gumbel Instance.softmax Instance.UNVISITED
              Instance.NO_PARENT unit Instance.muzero_action_selection
              Instance.switching_action_selection_wrapper Instance.summary
              Instance.instantiate_tree_from_root Instance.simulate
              Instance.expand Instance.backward tt tt 2%nat
              Instance.never_stop 1%R instance_summary_rows) as [H1 H2].
  destruct (H1 tt 1%nat 0%nat 0%nat tree 6 [[-1; -1; -1]] false eq_refl)
    as (action & tr & Hsample & Heq & Hsim & Hexp & Hback & Hstop & Hasked).
  assert (Ea : sample_action Instance.random_gumbel 0%nat
                 (visit_probs (Instance.summary searched)) 1 = ok [0])
    by (lazy; reflexivity).
  assert (Eaction : action = [0]).
  { fold tree searched in Hsample. rewrite Ea in Hsample.
    injection Hsample as <-. reflexivity. }
  subst action. fold tree searched new_tree in Heq, Hasked.
  assert (Hroot : root_index new_tree = [1]) by (lazy; reflexivity).
  assert (Hemb : embeddings new_tree = [[0; 1; 2; 3; 4; 5; 6]])
    by (lazy; reflexivity).
  assert (Hre : root_embedding 1 new_tree = [1]).
  { destruct Hasked as [Hlen Hnth].
    - rewrite Hemb. reflexivity.
    - rewrite Hroot. reflexivity.
    - rewrite Hemb. repeat constructor. discriminate.
    - specialize (Hnth 0%nat [0; 1; 2; 3; 4; 5; 6] 1 1).
      rewrite Hemb, Hroot in Hnth.
      specialize (Hnth eq_refl eq_refl ltac:(lia) eq_refl).
      destruct (root_embedding 1 new_tree) as [|e [|e' l]];
        try discriminate.
      injection Hnth as ->. reflexivity. }
  split; [reflexivity|]. split; [exact Ea|]. split; [exact Hroot|].
  split; [exact Hemb|]. split; [exact Hre|]. split.
  { exists tr. rewrite Hre in Heq. split; [exact Heq|].
    repeat split; assumption. }
  destruct (H2 0%nat Instance.root None tt 0%R 1%R 1%R 1%R tt 3%nat)
    as (r & out & tr' & Hrun & Hr & Hsim' & Hexp' & Hback' & Hcalls).
  assert (E : snd (Instance.run Instance.never_stop None None 2 3) =
              EvInstantiateTree Z 6 ::
              [EvSimulate Z 0 6; EvExpand Z 0 [1]; EvBackward Z 0 [1];
               EvSimulate Z 1 6; EvExpand Z 1 [1]; EvBackward Z 1 [1];
               EvStoppingCriteria [1];
               EvSimulate Z 2 5; EvExpand Z 2 [3]; EvBackward Z 2 [3];
               EvSimulate Z 3 5; EvExpand Z 3 [3]; EvBackward Z 3 [3];
               EvStoppingCriteria [3];
               EvSimulate Z 4 4; EvExpand Z 4 [5]; EvBackward Z 4 [5];
               EvSimulate Z 5 4; EvExpand Z 5 [5]; EvBackward Z 5 [5];
               EvStoppingCriteria [5]]) by (lazy; reflexivity).
  unfold Instance.run in E. rewrite Hrun in E. cbn [snd] in E.
  injection E as E.
  assert (Er : r = 3%nat) by (rewrite <- Hcalls, E; reflexivity).
  rewrite Er in Hsim', Hexp', Hback'. exists out, tr'. split; [exact Hrun|].
  split; [exact Hsim'|]. split; [exact Hexp'|]. split; [exact Hback'|].
  rewrite E. reflexivity.
Defined.

(** C3, at the instance. The simulation with counter 0 on the initial tree
    finds the edge of action 0 unvisited and expands node 1; the simulation
    with counter 5 on the resulting tree finds the edge visited and backs
    up through node 1 again, expanding no node 6. *)
Lemma new_node_index_is_simulation_number_witness :
  let tree := Instance.instantiate_tree_from_root Instance.root 6 [] tt in
  let visited := Instance.expand tt 0%nat tree tt [0] [0] [1] in
  children_index tree = [[[-1]; [-1]; [-1]; [-1]; [-1]; [-1]; [-1]]] /\
  children_index visited = [[[1]; [-1]; [-1]; [-1]; [-1]; [-1]; [-1]]] /\
  generate_next_action_inner Instance.random_split Instance.UNVISITED
    Instance.simulate Instance.expand Instance.backward tt tt tt 1 0
    (0%nat, tree, 6) =
  (ok (Instance.random_split 0%nat 3 0,
       Instance.backward
         (Instance.expand tt (Instance.random_split 0%nat 3 2) tree tt [0] [0]
            [1])
         [1],
       6),
   [EvSimulate Z 0 6; EvExpand Z 0 [1]; EvBackward Z 0 [1]]) /\
  generate_next_action_inner Instance.random_split Instance.UNVISITED
    Instance.simulate Instance.expand Instance.backward tt tt tt 1 5
    (0%nat, visited, 6) =
  (ok (Instance.random_split 0%nat 3 0,
       Instance.backward
         (Instance.expand tt (Instance.random_split 0%nat 3 2) visited tt [0]
            [0] [1])
         [1],
       6),
   [EvSimulate Z 5 6; EvExpand Z 5 [1]; EvBackward Z 5 [1]]).
Proof.
  intros tree visited.
  split; [reflexivity|]. split; [reflexivity|].
  assert (Hone : forall target : list Z,
            length target = 1%nat -> nth_error target 0 = Some 1 ->
            target = [1]).
  { intros [|t [|t' l]] Hlen Hnth; try discriminate.
    injection Hnth as ->. reflexivity. }
  split.
  - destruct (@new_node_index_is_simulation_number unit Instance.Embedding
                unit unit Instance.PRNGKey Instance.random_split
                Instance.UNVISITED unit Instance.simulate Instance.expand
                Instance.backward tt tt tt 1%nat 0%nat 0%nat tree 6)
      as (target & Heq & Hlen & Hnth).
    assert (Et : target = [1]).
    { apply Hone; [exact Hlen|].
      apply (Hnth 0%nat 0 0 [[-1]; [-1]; [-1]; [-1]; [-1]; [-1]; [-1]] [-1]
               (-1)); try reflexivity; lia. }
    rewrite Et in Heq. exact Heq.
  - destruct (@new_node_index_is_simulation_number unit Instance.Embedding
                unit unit Instance.PRNGKey Instance.random_split
                Instance.UNVISITED unit Instance.simulate Instance.expand
                Instance.backward tt tt tt 1%nat 5%nat 0%nat visited 6)
      as (target & Heq & Hlen & Hnth).
    assert (Et : target = [1]).
    { apply Hone; [exact Hlen|].
      apply (Hnth 0%nat 0 0 [[1]; [-1]; [-1]; [-1]; [-1]; [-1]; [-1]] [1]
               1); try reflexivity; lia. }
    rewrite Et in Heq. exact Heq.
Defined.






(** C6: with [max_depth] unset, two simulations per action and three
    actions, the simulations run with [max_depth] 6, then 5, then 4, and
    never with [num_simulations = 2]. *)
Lemma default_max_depth_is_not_num_simulations :
  map snd (simulations (snd (Instance.run Instance.never_stop None None 2 3))) =
    [6; 6; 5; 5; 4; 4] /\
  ~ In (Z.of_nat 2)
       (map snd
            (simulations
               (snd (Instance.run Instance.never_stop None None 2 3)))).
Proof.
  assert (E : map snd
                (simulations
                   (snd (Instance.run Instance.never_stop None None 2 3))) =
              [6; 6; 5; 5; 4; 4]) by (lazy; reflexivity).
  split; [exact E|]. rewrite E. simpl. intros H.
  repeat (destruct H as [H | H]; [discriminate|]). exact H.
Qed.

(** C6 (amended), at the instance. *)
Lemma default_max_depth_is_total_simulation_budget_witness :
  (forall t, nonempty_rows (visit_probs (Instance.summary t))) /\
  exists out tr,
    Instance.run Instance.never_stop None None 2 3 =
      (ok out, EvInstantiateTree Z (3 * 2) :: tr) /\
    simulations tr =
      round_simulations 2 (Z.of_nat (2 * 3)) 0 (length (stopping_calls tr)).
Proof.
  split; [exact instance_summary_rows|].
  unfold Instance.run.
  apply default_max_depth_is_total_simulation_budget.
  exact instance_summary_rows.
Defined.

(** C10, at the instance: a loop state whose countdown is 0 is left
    unchanged by the remaining iterations, and in a call whose stopping
    criterion holds after the first round the later columns keep [-1]. *)
Lemma stopped_generation_leaves_state_unchanged_witness :
  (forall t, nonempty_rows (visit_probs (Instance.summary t))) /\
  let tree := Instance.instantiate_tree_from_root Instance.root 6 [] tt in
  stopped (0%nat, tree, 0, [[0; -1; -1]], false) = true /\
  fori_loopM 1 3 (Instance.iteration Instance.stop_at_node_1 2)
    (0%nat, tree, 0, [[0; -1; -1]], false) =
    (ok (0%nat, tree, 0, [[0; -1; -1]], false), []) /\
  exists out tr,
    Instance.run Instance.stop_at_node_1 None None 2 3 = (ok out, tr) /\
    action_weights out = [] /\
    length (action out) = length (value Instance.root) /\
    (length (stopping_calls tr) <= 3)%nat /\
    columns_unset (action out) (length (stopping_calls tr)) 3.
Proof.
  split; [exact instance_summary_rows|].
  intros tree. split; [reflexivity|].
  unfold Instance.run.
  pose proof (@stopped_generation_leaves_state_unchanged) as T.
  edestruct T as (_ & _ & H3 & H4);
    [|split; [apply H3; reflexivity | apply H4]].
  exact instance_summary_rows.
Defined.


(** C8: a valid action whose logit is minus infinity keeps it, an infinite
    logit gives NaN, finite logits further apart than the largest finite
    value overflow to minus infinity when the maximum is subtracted, and a
    NaN probability gives a NaN logit. *)
Lemma logit_helpers_return_non_finite_values :
  _mask_invalid_actions [[NegInf; Fin 0]] (Some [[false; true]]) =
    ok [[NegInf; Fin finfo_min]] /\
  _mask_invalid_actions [[PosInf; Fin 0]] (Some [[false; false]]) =
    ok [[NaN; NegInf]] /\
  _mask_invalid_actions [[Fin finfo_min; Fin finfo_max]]
    (Some [[false; false]]) = ok [[NegInf; Fin 0]] /\
  _mask_invalid_actions [[NegInf; NaN]] None = ok [[NegInf; NaN]] /\
  _get_logits_from_probs [[NaN]] = [[NaN]].
Proof.
  split; [reflexivity|]. split; [reflexivity|]. split; [|split; reflexivity].
  pose proof finfo_max_pos as Hmax. pose proof finfo_min_max as Hmin.
  unfold _mask_invalid_actions. cbn [same_shape length Nat.eqb andb].
  cbn [mapM sub_row_max row_max fold_left bind ok].
  rewrite fmaximum_Fin, (Rmax_right finfo_min finfo_max) by lra.
  cbn [map fsub fneg fadd].
  rewrite fround_neg_overflow by lra.
  replace (finfo_max + - finfo_max)%R with 0%R by lra.
  rewrite (fround_exact representable_0). reflexivity.
Qed.

(** C8 (amended), at an all-invalid mask and an all-zero probability
    vector. *)
Lemma logit_helpers_finite_on_finite_input_witness :
  [[1%R; 2%R]] <> [] /\
  nonempty_rows [[1%R; 2%R]] /\
  Forall within_spread [[1%R; 2%R]] /\
  same_shape (map (map Fin) [[1%R; 2%R]]) [[true; true]] = true /\
  Forall (Forall (fun p => p <> NaN)) [[Fin 0; Fin 0]] /\
  _mask_invalid_actions [[Fin 1; Fin 2]] (Some [[true; true]]) =
    ok [[Fin finfo_min; Fin finfo_min]] /\
  Forall (Forall (fun l => l <> NaN /\ l <> NegInf))
         (_get_logits_from_probs [[Fin 0; Fin 0]]).
Proof.
  assert (H0 : [[1%R; 2%R]] <> []) by discriminate.
  assert (H1 : nonempty_rows [[1%R; 2%R]])
    by (repeat constructor; discriminate).
  assert (H2 : Forall within_spread [[1%R; 2%R]]).
  { constructor; [|constructor]. intros v Hx.
    assert (E : Rrow_max [1%R; 2%R] = 2%R) by (simpl; apply Rmax_right; lra).
    rewrite E. pose proof finfo_max_large.
    destruct Hx as [<-|[<-|[]]]; lra. }
  assert (H3 : same_shape (map (map Fin) [[1%R; 2%R]]) [[true; true]] = true)
    by reflexivity.
  assert (H4 : Forall (Forall (fun p => p <> NaN)) [[Fin 0; Fin 0]])
    by (repeat constructor; discriminate).
  repeat (split; [assumption|]).
  destruct (@logit_helpers_finite_on_finite_input [[1%R; 2%R]]
              [[true; true]] [[Fin 0; Fin 0]] H0 H1 H2 H3 H4)
    as [(out & Heq & Hfin & Hlen & Hinv) Hlog].
  split; [|exact Hlog].
  change (map (map Fin) [[1%R; 2%R]]) with [[Fin 1; Fin 2]] in Heq.
  rewrite Heq. f_equal.
  destruct (Hinv 0%nat 0%nat [true; true] eq_refl eq_refl)
    as (orow & Horow & Hl & H0').
  destruct (Hinv 0%nat 1%nat [true; true] eq_refl eq_refl)
    as (orow' & Horow' & _ & H1').
  rewrite Horow in Horow'. injection Horow' as <-.
  destruct out as [|r [|r' out]]; try discriminate.
  simpl in Horow. injection Horow as ->.
  destruct orow as [|x [|y [|z orow]]]; try discriminate.
  simpl in H0', H1'. injection H0' as ->. injection H1' as ->. reflexivity.
Defined.

Lemma inv_INR_unit : forall n, (0 <= / INR n <= 1)%R.
Proof.
  intros [|n].
  - simpl. rewrite Rinv_0. lra.
  - assert (H : (1 <= INR (S n))%R).
    { rewrite S_INR. pose proof (pos_INR n). lra. }
    split.
    + left. apply Rinv_0_lt_compat. lra.
    + rewrite <- Rinv_1. apply Rinv_le_contravar; lra.
Qed.

Lemma instance_dirichlet_finite : forall key shape b a,
  finite_float (Instance.random_dirichlet key 1 shape b a).
Proof.
  intros key shape b a. unfold Instance.random_dirichlet.
  rewrite Rltb_true by lra. eexists. split; [reflexivity|].
  pose proof (inv_INR_unit (snd shape)). pose proof finfo_max_large.
  unfold representable. rewrite finfo_min_max. lra.
Qed.

(** C9: with a Dirichlet sample that holds NaN, as for an alpha of 0, a
    fraction of 0 does not return the probabilities: every entry becomes
    NaN, and so do the root's prior logits. *)
Lemma dirichlet_fraction_zero_keeps_nan_noise :
  Instance.random_dirichlet 0%nat 0 (1%nat, 2%nat) 0 0 = NaN /\
  _add_dirichlet_noise Instance.random_dirichlet 0%nat
    [[Fin (1 / 4); Fin (3 / 4)]] 0 0 = [[NaN; NaN]] /\
  _add_dirichlet_noise Instance.random_dirichlet 0%nat
    [[Fin (1 / 4); Fin (3 / 4)]] 0 0 <> [[Fin (1 / 4); Fin (3 / 4)]] /\
  exists noisy_root,
    root_with_dirichlet_noise Instance.random_dirichlet Instance.softmax
      0%nat Instance.root_two_actions None 0 0 = ok noisy_root /\
    prior_logits noisy_root = [[NaN; NaN]].
Proof.
  assert (E : Instance.random_dirichlet 0%nat 0 (1%nat, 2%nat) 0 0 = NaN).
  { unfold Instance.random_dirichlet. rewrite Rltb_false by lra.
    reflexivity. }
  assert (Hnan : forall p, fadd (fscale (1 - 0) (Fin p)) (fscale 0 NaN) = NaN).
  { intros p. cbn [fscale].
    destruct (fround_cases ((1 - 0) * p)) as [[H _] | [[H _] | [H _]]];
      rewrite H; reflexivity. }
  assert (Hadd : forall p q,
             _add_dirichlet_noise Instance.random_dirichlet 0%nat
               [[Fin p; Fin q]] 0 0 = [[NaN; NaN]]).
  { intros p q. unfold _add_dirichlet_noise.
    cbv [imap imap_from shape2 length Nat.add].
    unfold Instance.random_dirichlet. rewrite Rltb_false by lra.
    rewrite !Hnan. reflexivity. }
  split; [exact E|]. split; [apply Hadd|]. split.
  - rewrite Hadd. discriminate.
  - unfold root_with_dirichlet_noise, Instance.softmax.
    change (prior_logits Instance.root_two_actions) with [[Fin 0; Fin 0]].
    rewrite Hadd. eexists. split; reflexivity.
Qed.

(** C9 (amended), at the instance with a Dirichlet alpha of 1. *)
Lemma dirichlet_fraction_zero_is_identity_witness :
  (forall key shape b a,
      finite_float (Instance.random_dirichlet key 1 shape b a)) /\
  nonempty_rows [[Fin (1 / 4); Fin (3 / 4)]] /\
  Forall (Forall is_float) [[Fin (1 / 4); Fin (3 / 4)]] /\
  nonempty_rows (Instance.softmax (prior_logits Instance.root_two_actions)) /\
  Forall (Forall is_float)
    (Instance.softmax (prior_logits Instance.root_two_actions)) /\
  _add_dirichlet_noise Instance.random_dirichlet 0%nat
    [[Fin (1 / 4); Fin (3 / 4)]] 1 0 = [[Fin (1 / 4); Fin (3 / 4)]] /\
  root_with_dirichlet_noise Instance.random_dirichlet Instance.softmax 0%nat
    Instance.root_two_actions None 0 1 =
  root_with_dirichlet_noise Instance.random_dirichlet Instance.softmax 1%nat
    Instance.root_two_actions None 0 1.
Proof.
  assert (Hrep : forall x, (0 <= x <= 1)%R -> representable x).
  { intros x Hx. unfold representable. rewrite finfo_min_max.
    pose proof finfo_max_large. lra. }
  assert (H0 : [[Fin (1 / 4); Fin (3 / 4)]] <> []) by discriminate.
  assert (Hne : nonempty_rows [[Fin (1 / 4); Fin (3 / 4)]])
    by (repeat constructor; discriminate).
  assert (H1 : Forall (Forall is_float) [[Fin (1 / 4); Fin (3 / 4)]]).
  { repeat first [apply Forall_nil | apply Forall_cons];
      cbn [is_float]; apply Hrep; lra. }
  assert (H0' : Instance.softmax (prior_logits Instance.root_two_actions) <>
                []) by discriminate.
  assert (Hne' : nonempty_rows
                   (Instance.softmax
                      (prior_logits Instance.root_two_actions)))
    by (repeat constructor; discriminate).
  assert (H2 : Forall (Forall is_float)
                 (Instance.softmax (prior_logits Instance.root_two_actions))).
  { repeat first [apply Forall_nil | apply Forall_cons];
      cbn [is_float]; apply Hrep; lra. }
  split; [exact instance_dirichlet_finite|].
  split; [exact Hne|]. split; [exact H1|].
  split; [exact Hne'|]. split; [exact H2|].
  destruct (@dirichlet_fraction_zero_is_identity Instance.Embedding
              Instance.PRNGKey Instance.random_dirichlet Instance.softmax
              0%nat 1%nat [[Fin (1 / 4); Fin (3 / 4)]]
              Instance.root_two_actions None 1%R instance_dirichlet_finite
              H0 Hne H1 H0' Hne' H2) as (Hid & _ & Hkey).
  split; [exact Hid | exact Hkey].
Defined.

(** ** The further properties at concrete inputs *)

(** X1, at a row that holds a NaN. *)
Lemma sampled_actions_are_row_indices_witness :
  nonempty_rows [[NaN; Fin 1]] /\
  exists actions,
    sample_action Instance.random_gumbel 0%nat [[NaN; Fin 1]] 1 = ok actions /\
    Forall2 (fun row a => 0 <= a < Z.of_nat (length row))
            [[NaN; Fin 1]] actions.
Proof.
  assert (H : nonempty_rows [[NaN; Fin 1]])
    by (repeat constructor; discriminate).
  split; [exact H|].
  exact (sampled_actions_are_row_indices Instance.random_gumbel 0%nat 1 H).
Defined.

Lemma instance_tied_summary_rows :
  forall t, nonempty_rows (visit_probs (Instance.summary_tied t)).
Proof. intros t. repeat constructor. discriminate. Qed.

(** X3, at the instance with two actions. *)
Lemma muzero_policy_returns_row_indices_witness :
  (forall t, nonempty_rows (visit_probs (Instance.summary_tied t))) /\
  exists out,
    Instance.standard 0%nat 1 = ok out /\
    action_weights out =
      visit_probs (Instance.summary_tied (search_tree out)) /\
    Forall2 (fun row a => 0 <= a < Z.of_nat (length row))
            (action_weights out) (action out).
Proof.
  split; [exact instance_tied_summary_rows|].
  unfold Instance.standard.
  eapply muzero_policy_returns_row_indices.
  - unfold root_with_dirichlet_noise. cbn [_mask_invalid_actions bind ok].
    reflexivity.
  - exact instance_tied_summary_rows.
Defined.

Lemma spread_of_small_row : forall row,
  Forall (fun x => (- 10 <= x <= 10)%R) row -> within_spread row.
Proof.
  intros row H x Hx. rewrite Forall_forall in H.
  assert (Hne : row <> []) by (intros ->; contradiction).
  pose proof (H _ (Rrow_max_In Hne)). pose proof (H _ Hx).
  pose proof finfo_max_large. lra.
Qed.

(** X6, at logits [1, 3, 2] whose largest entry is invalid. *)
Lemma _mask_invalid_actions_valid_entries_witness :
  nonempty_rows [[1%R; 3%R; 2%R]] /\
  Forall within_spread [[1%R; 3%R; 2%R]] /\
  same_shape (map (map Fin) [[1%R; 3%R; 2%R]]) [[false; true; false]] = true /\
  exists out orow,
    _mask_invalid_actions [[Fin 1; Fin 3; Fin 2]]
      (Some [[false; true; false]]) = ok out /\
    nth_error out 0 = Some orow /\
    nth_error orow 0 = Some (Fin (1 - 3)) /\
    nth_error orow 2 = Some (Fin (2 - 3)).
Proof.
  assert (H1 : nonempty_rows [[1%R; 3%R; 2%R]])
    by (repeat constructor; discriminate).
  assert (H2 : Forall within_spread [[1%R; 3%R; 2%R]]).
  { constructor; [|constructor]. apply spread_of_small_row.
    repeat first [apply Forall_nil | apply Forall_cons]; lra. }
  assert (H3 : same_shape (map (map Fin) [[1%R; 3%R; 2%R]])
                 [[false; true; false]] = true) by reflexivity.
  assert (Emax : Rrow_max [1%R; 3%R; 2%R] = 3%R).
  { simpl. rewrite (Rmax_right 1 3) by lra. apply Rmax_left. lra. }
  split; [exact H1|]. split; [exact H2|]. split; [exact H3|].
  destruct (@_mask_invalid_actions_valid_entries [[1%R; 3%R; 2%R]]
              [[false; true; false]] 0%nat 0%nat [1%R; 3%R; 2%R]
              [false; true; false] H1 H2 H3 eq_refl eq_refl eq_refl)
    as (out & orow & Hout & Hrow & Ha & _).
  destruct (@_mask_invalid_actions_valid_entries [[1%R; 3%R; 2%R]]
              [[false; true; false]] 0%nat 2%nat [1%R; 3%R; 2%R]
              [false; true; false] H1 H2 H3 eq_refl eq_refl eq_refl)
    as (out' & orow' & Hout' & Hrow' & Ha' & _).
  rewrite Hout in Hout'. injection Hout' as <-.
  rewrite Hrow in Hrow'. injection Hrow' as <-.
  rewrite Emax in Ha, Ha'. cbn [nth] in Ha, Ha'.
  exists out, orow. repeat split; assumption.
Defined.


(** X10, at the instance with two actions, the second one invalid, a
    Dirichlet alpha of 1 and a fraction of 1/4. *)
Lemma root_with_dirichlet_noise_is_finite_witness :
  Instance.softmax (prior_logits Instance.root_two_actions) =
    map (map Fin) [[0%R; 0%R]] /\
  nonempty_rows [[0%R; 0%R]] /\
  (0 <= 1 / 4 <= 1)%R /\
  (forall b a,
      Instance.random_dirichlet 0%nat 1 (shape2 [[0%R; 0%R]]) b a =
      Fin (/ INR 2)) /\
  same_shape [[0%R; 0%R]] [[false; true]] = true /\
  exists noisy_root,
    root_with_dirichlet_noise Instance.random_dirichlet Instance.softmax 0%nat
      Instance.root_two_actions (Some [[false; true]]) (1 / 4) 1 =
      ok noisy_root /\
    value noisy_root = value Instance.root_two_actions /\
    embedding noisy_root = embedding Instance.root_two_actions /\
    Forall (Forall is_finite) (prior_logits noisy_root) /\
    same_row_lengths [[0%R; 0%R]] (prior_logits noisy_root).
Proof.
  assert (H1 : Instance.softmax (prior_logits Instance.root_two_actions) =
               map (map Fin) [[0%R; 0%R]]) by reflexivity.
  assert (H0 : [[0%R; 0%R]] <> []) by discriminate.
  assert (H2 : nonempty_rows [[0%R; 0%R]])
    by (repeat constructor; discriminate).
  assert (H3 : forall row p, In row [[0%R; 0%R]] -> In p row ->
                             (0 <= p <= 1)%R).
  { intros row p [<-|[]] [<-|[<-|[]]]; lra. }
  assert (H4 : (0 <= 1 / 4 <= 1)%R) by lra.
  assert (H5 : forall b a,
             Instance.random_dirichlet 0%nat 1 (shape2 [[0%R; 0%R]]) b a =
             Fin ((fun _ _ => / INR 2)%R b a)).
  { intros b a. unfold Instance.random_dirichlet.
    rewrite Rltb_true by lra. reflexivity. }
  assert (H6 : forall b a : nat, (0 <= (fun _ _ => / INR 2)%R b a <= 1)%R)
    by (intros b a; apply inv_INR_unit).
  assert (H7 : forall mask, Some [[false; true]] = Some mask ->
                            same_shape [[0%R; 0%R]] mask = true).
  { intros mask E. injection E as <-. reflexivity. }
  split; [exact H1|]. split; [exact H2|]. split; [exact H4|].
  split; [exact H5|]. split; [reflexivity|].
  exact (@root_with_dirichlet_noise_is_finite Instance.Embedding
           Instance.PRNGKey Instance.random_dirichlet Instance.softmax 0%nat
           Instance.root_two_actions (Some [[false; true]]) (1 / 4)%R 1%R
           [[0%R; 0%R]] (fun _ _ => / INR 2)%R H1 H0 H2 H3 H4 H5 H6 H7).
Defined.

(** X11, at the instance: three actions to generate and [max_depth = 1]. *)
Lemma max_depth_caps_generated_actions_witness :
  (forall t, nonempty_rows (visit_probs (Instance.summary t))) /\
  0 <= 1 /\
  exists out tr,
    Instance.run Instance.never_stop None (Some 1) 2 3 =
      (ok out, EvInstantiateTree Z (3 * 2) :: tr) /\
    (length (stopping_calls tr) <= 3)%nat /\
    Z.of_nat (length (stopping_calls tr)) <= 1 /\
    columns_unset (action out) (length (stopping_calls tr)) 3.
Proof.
  split; [exact instance_summary_rows|]. split; [lia|].
  unfold Instance.run.
  edestruct max_depth_caps_generated_actions
    as (out & tr & Heq & Hk & Hd & _ & _ & _ & Hcols & _);
    [| |exists out, tr; split; [exact Heq|];
         split; [exact Hk|]; split; [exact Hd | exact Hcols]].
  - exact instance_summary_rows.
  - lia.
Defined.

(** X12, at the instance: [max_depth] unset, two simulations per action and
    three actions. *)
Lemma never_stopping_criterion_runs_until_depth_witness :
  (forall t, nonempty_rows (visit_probs (Instance.summary t))) /\
  (forall e, Instance.never_stop e = false) /\
  rounds_until_depth 3 (Z.of_nat (2 * 3)) = 3%nat /\
  exists out tr,
    Instance.run Instance.never_stop None None 2 3 =
      (ok out, EvInstantiateTree Z (3 * 2) :: tr) /\
    length (stopping_calls tr) = rounds_until_depth 3 (Z.of_nat (2 * 3)) /\
    expansions tr = seq 0 (rounds_until_depth 3 (Z.of_nat (2 * 3)) * 2).
Proof.
  assert (H : forall e, Instance.never_stop e = false)
    by (intros e; reflexivity).
  split; [exact instance_summary_rows|]. split; [exact H|].
  split; [reflexivity|].
  unfold Instance.run.
  edestruct never_stopping_criterion_runs_until_depth
    as ((out & tr & Heq & Hc & _ & He & _) & _);
    [| |exists out, tr; split; [exact Heq|]; split; [exact Hc | exact He]].
  - exact instance_summary_rows.
  - exact H.
Defined.

Lemma instance_summary_rect :
  forall t, rect (length (value Instance.root)) 1
                 (visit_probs (Instance.summary t)).
Proof. intros t. split; repeat constructor. Qed.

(** X13, at the instance stopped by its criterion after the first round. *)
Lemma performed_actions_are_indices_then_unset_witness :
  (0 < 1)%nat /\
  (forall t, rect (length (value Instance.root)) 1
                  (visit_probs (Instance.summary t))) /\
  exists out tr,
    Instance.run Instance.stop_at_node_1 None None 2 3 =
      (ok out, EvInstantiateTree Z (3 * 2) :: tr) /\
    (length (stopping_calls tr) <= 3)%nat /\
    actions_until (length (value Instance.root)) 3 1
      (length (stopping_calls tr)) (action out).
Proof.
  split; [lia|]. split; [exact instance_summary_rect|].
  unfold Instance.run.
  eapply performed_actions_are_indices_then_unset.
  - lia.
  - exact instance_summary_rect.
Defined.

(** X14, at the instance. *)
Lemma every_round_samples_with_the_same_key_witness :
  (0 < 1)%nat /\
  (forall t, rect (length (value Instance.root)) 1
                  (visit_probs (Instance.summary t))) /\
  exists out tr,
    Instance.run Instance.never_stop None None 2 3 =
      (ok out, EvInstantiateTree Z (3 * 2) :: tr) /\
    forall j, (j < length (stopping_calls tr))%nat ->
      exists tree,
        sample_action Instance.random_gumbel (Instance.random_split 0%nat 3 0)
          (visit_probs (Instance.summary tree)) 1 =
        ok (action_column j (action out)).
Proof.
  split; [lia|]. split; [exact instance_summary_rect|].
  unfold Instance.run.
  eapply every_round_samples_with_the_same_key.
  - assert (H : (0 < 1)%nat) by lia. exact H.
  - exact instance_summary_rect.
Defined.


(** X16, at the instance with two actions and a mask of three. *)
Lemma mismatched_mask_raises_assertion_error_witness :
  prior_logits Instance.root_two_actions <> [] /\
  nonempty_rows (prior_logits Instance.root_two_actions) /\
  same_shape (prior_logits Instance.root_two_actions) [[false; true; false]] =
    false /\
  same_row_lengths (prior_logits Instance.root_two_actions)
    (Instance.softmax (prior_logits Instance.root_two_actions)) /\
  muzero_policy Instance.random_split Instance.random_dirichlet
    Instance.random_gumbel Instance.softmax Instance.muzero_action_selection
    Instance.summary_tied tt Instance.search tt 0%nat
    Instance.root_two_actions tt 2 (Some [[false; true; false]]) None tt 0 1
    1 1 1 = raise AssertionError /\
  gumbel_muzero_policy Instance.random_split Instance.random_gumbel
    Instance.softmax 0 (fun _ _ _ => tt) (fun _ => tt) Instance.summary_tied
    (fun _ _ _ => [[Fin 0; Fin 0]]) (fun _ => tt) Instance.search tt 0%nat
    Instance.root_two_actions tt 2 (Some [[false; true; false]]) None tt 2 1
    = raise AssertionError.
Proof.
  assert (H0 : prior_logits Instance.root_two_actions <> []) by discriminate.
  assert (Hne : nonempty_rows (prior_logits Instance.root_two_actions))
    by (repeat constructor; discriminate).
  assert (H1 : same_shape (prior_logits Instance.root_two_actions)
                 [[false; true; false]] = false) by reflexivity.
  assert (H2 : same_row_lengths (prior_logits Instance.root_two_actions)
                 (Instance.softmax (prior_logits Instance.root_two_actions)))
    by (repeat constructor).
  split; [exact H0|]. split; [exact Hne|]. split; [exact H1|].
  split; [exact H2|].
  apply mismatched_mask_raises_assertion_error; assumption.
Defined.

(** X17, at the initial tree of the instance, none of whose edges is
    visited: the root index becomes [-1] and the stopping criterion gets
    the embedding of the last node. *)
Lemma unvisited_action_makes_root_index_unvisited_witness :
  let tree := Instance.instantiate_tree_from_root Instance.root 2 [] tt in
  root_index tree = [0] /\
  children_index tree = [[[-1]; [-1]; [-1]]] /\
  embeddings tree = [[0; 1; 2]] /\
  Instance.UNVISITED = -1 /\
  root_index (update_root Instance.NO_PARENT 1 tree [0]) = [-1] /\
  root_embedding 1 (update_root Instance.NO_PARENT 1 tree [0]) = [2].
Proof.
  intros tree.
  assert (H1 : length (root_index tree) = 1%nat) by reflexivity.
  assert (H2 : length (embeddings tree) = 1%nat) by reflexivity.
  assert (H3 : Forall (fun r : list Instance.Embedding => r <> [])
                 (embeddings tree))
    by (repeat constructor; discriminate).
  assert (H4 : (0 < 1)%nat) by lia.
  assert (H5 : Instance.UNVISITED = -1) by reflexivity.
  destruct (@unvisited_action_makes_root_index_unvisited Instance.Embedding
              unit Instance.UNVISITED Instance.NO_PARENT 1%nat tree [0]
              0%nat 0 0 [[-1]; [-1]; [-1]] [-1] [0; 1; 2] H1 H2 H3 H4
              eq_refl eq_refl ltac:(lia) ltac:(lia) eq_refl eq_refl eq_refl
              H5 eq_refl) as (Hidx & e & He & Hemb).
  cbv zeta in Hemb.
  split; [reflexivity|]. split; [reflexivity|]. split; [reflexivity|].
  split; [exact H5|]. split.
  - destruct (root_index (update_root Instance.NO_PARENT 1 tree [0]))
      as [|i [|i' l]] eqn:E; try discriminate.
    simpl in Hidx. injection Hidx as ->. reflexivity.
  - simpl in He. injection He as <-.
    destruct (root_embedding 1 (update_root Instance.NO_PARENT 1 tree [0]))
      as [|x [|x' l]] eqn:E; try discriminate.
    simpl in Hemb. injection Hemb as ->. reflexivity.
Defined.
